(** * D2D_KPI: link-level capacity and power-proxy comparison, D2D versus direct

    A shallow embedding of [D2D_KPI.py].  Python floats are idealised as the
    real numbers of the Standard Library: rounding, overflow, underflow and
    NaN are outside the model, except in [Binary64], which evaluates the
    path loss and the received power of [snr_rayleigh] on IEEE 754 binary64
    numbers, where the underflow of the cubed distance decides whether the
    division by the path loss raises.  What Python raises is kept: a division by
    zero raises [ZeroDivisionError], [math.sqrt] and [math.log2] raise
    [ValueError] outside their domain, and [.iloc[0]] on an empty selection
    raises [IndexError].  The NumPy generator behind [noise] is an explicit
    state: the sequence of standard-normal samples still to be drawn.
    Identifiers are integers and a pandas NaN in [Parent ID] is [None].  The
    set [parents] is a [gset]; the loop over it follows [elements], one
    fixed order without repetition, as the iteration of a Python set is.
    The f-string rendering of the numeric columns is not modelled; a row
    holds the numbers that are rendered. *)

From Stdlib Require Import Floats.
From Stdlib Require Import Reals Lra Psatz ZArith String List.
From stdpp Require Import base strings gmap sets list.

Set Warnings "-inexact-float".

Open Scope R_scope.

(** ** Python exceptions and the generator state *)

Inductive exn : Set := ZeroDivisionError | ValueError | IndexError.

Inductive result (A : Type) : Type :=
| Ok (a : A)
| Raise (e : exn).
Arguments Ok {A} a.
Arguments Raise {A} e.

(** The samples the generator will hand out, first one at index 0. *)
Definition rng : Type := nat -> R.

Definition next (g : rng) : rng := fun k => g (S k).

(** A computation that may draw samples and may raise. *)
Definition M (A : Type) : Type := rng -> result (A * rng).

Definition ret {A} (a : A) : M A := fun g => Ok (a, g).

Definition bind {A B} (m : M A) (k : A -> M B) : M B :=
  fun g => match m g with
           | Ok (a, g') => k a g'
           | Raise e => Raise e
           end.

Definition lift {A} (r : result A) : M A :=
  fun g => match r with
           | Ok a => Ok (a, g)
           | Raise e => Raise e
           end.

Definition rbind {A B} (r : result A) (k : A -> result B) : result B :=
  match r with
  | Ok a => k a
  | Raise e => Raise e
  end.

Declare Scope py_scope.
Delimit Scope py_scope with py.
Notation "x <- m ;; k" := (bind m (fun x => k))
  (at level 100, m at next level, right associativity) : py_scope.
Notation "x <~ r ;; k" := (bind (lift r) (fun x => k))
  (at level 100, r at next level, right associativity) : py_scope.
Notation "x <-? r ;; k" := (rbind r (fun x => k))
  (at level 100, r at next level, right associativity) : py_scope.
Open Scope py_scope.

(** [for x in l: s = body x s] *)
Fixpoint for_each {A S} (l : list A) (body : A -> S -> M S) (s : S) : M S :=
  match l with
  | [] => ret s
  | x :: l' => s' <- body x s ;; for_each l' body s'
  end.

(** ** Python arithmetic that can raise *)

Definition py_div (x y : R) : result R :=
  if Req_dec_T y 0 then Raise ZeroDivisionError else Ok (x / y).

Definition py_sqrt (x : R) : result R :=
  if Rlt_dec x 0 then Raise ValueError else Ok (sqrt x).

Definition py_log2 (x : R) : result R :=
  if Rle_dec x 0 then Raise ValueError else Ok (ln x / ln 2).

Definition radians (x : R) : R := x * (PI / 180).

(** [math.atan2 y x], the angle of the point [(x, y)] in (-PI, PI]. *)
Definition atan2 (y x : R) : R :=
  if Rlt_dec 0 x then atan (y / x)
  else if Rlt_dec x 0 then
         if Rle_dec 0 y then atan (y / x) + PI else atan (y / x) - PI
  else if Rlt_dec 0 y then PI / 2
  else if Rlt_dec y 0 then - (PI / 2)
  else 0.

(** ** Constants *)

Definition PATH_EXP : nat := 3.
Definition EARTH_R : R := 6371000.
Definition TEMP_K : R := 290.
Definition BOLTZ : R := 1.38064852e-23.
Definition C_LIGHT : R := 299792458.

Definition BS_RX_GAIN_dBi : R := 14.
Definition UE_TX_GAIN_dBi : R := 0.
Definition PARENT_RX_GAIN_dBi : R := 6.
Definition BS_RX_GAIN : R := Rpower 10 (BS_RX_GAIN_dBi / 10).
Definition UE_TX_GAIN : R := Rpower 10 (UE_TX_GAIN_dBi / 10).
Definition PARENT_RX_GAIN : R := Rpower 10 (PARENT_RX_GAIN_dBi / 10).

Definition MIMO_STREAMS : R := 4.

Record NRBand : Type := mkBand { fc : R; bw : R; eirp_dbm : R }.

(** The dict keeps insertion order, which is the order of the result rows. *)
Definition NR_BANDS : list (string * NRBand) :=
  [ ("n77"%string,  mkBand 3.7e9 200e6 30);
    ("n260"%string, mkBand 39e9 1600e6 30);
    ("n261"%string, mkBand 28e9 1600e6 30) ].

(** ** The topology table *)

Record Node : Type := mkNode {
  Name : string;
  ID : Z;
  Latitude : R;
  Longitude : R;
  Parent_ID : option Z   (* [None] is pandas' NaN *)
}.

Abbreviation DataFrame := (list Node) (only parsing).

(** [sel.iloc[0]] *)
Definition iloc0 {A} (sel : list A) : result A :=
  match sel with
  | [] => Raise IndexError
  | x :: _ => Ok x
  end.

Definition is_bs (n : Node) : Prop := Name n = "BaseStation"%string.

(** [df[df["Name"] == "BaseStation"].iloc[0]] *)
Definition find_bs (df : DataFrame) : result Node :=
  iloc0 (filter is_bs df).

(** [df[df["Name"] != "BaseStation"]] *)
Definition select_ues (df : DataFrame) : list Node :=
  filter (fun n => ~ is_bs n) df.

(** [df[df["ID"] == pid].iloc[0]] *)
Definition find_id (df : DataFrame) (pid : Z) : result Node :=
  iloc0 (filter (fun n => ID n = pid) df).

(** ** Helper functions *)

(** The half-angle term [a] of [haversine_m]. *)
Definition haversine_a (lat lon bs_lat bs_lon : R) : R :=
  let phi1 := radians lat in
  let phi2 := radians bs_lat in
  let dphi := radians (bs_lat - lat) in
  let dlmb := radians (bs_lon - lon) in
  sin (dphi / 2) ^ 2 + cos phi1 * cos phi2 * sin (dlmb / 2) ^ 2.

Definition haversine_m (row : Node) (bs_lat bs_lon : R) : result R :=
  let a := haversine_a (Latitude row) (Longitude row) bs_lat bs_lon in
  sa <-? py_sqrt a ;;
  sb <-? py_sqrt (1 - a) ;;
  Ok (EARTH_R * 2 * atan2 sa sb).

Definition dbm_to_w (dbm : R) : R := Rpower 10 ((dbm - 30) / 10).

(** [np.random.normal(loc, scale)] is [loc + scale * z] for the next
    standard-normal sample [z]. *)
Definition noise_of (bw z : R) : R := BOLTZ * TEMP_K * bw + 1e-18 * z.

Definition noise (bw : R) : M R :=
  fun g => Ok (noise_of bw (g 0%nat), next g).

Definition rayleigh_path_loss (fc d : R) : result R :=
  lambda_c <-? py_div C_LIGHT fc ;;
  py_div (d ^ PATH_EXP) (lambda_c ^ 2).

(** [if d == 0: d = 0.1] *)
Definition clamp_d (d : R) : R := if Req_dec_T d 0 then 0.1 else d.

Definition snr_rayleigh (pt d fc g_tx g_rx bw : R) : M R :=
  let d := clamp_d d in
  path_loss <~ rayleigh_path_loss fc d ;;
  prx <~ py_div (pt * g_tx * g_rx) path_loss ;;
  n <- noise bw ;;
  lift (py_div prx (Rabs n)).

Definition capacity (bw snr_lin : R) : result R :=
  l <-? py_log2 (1 + snr_lin) ;;
  Ok (bw * l).

(** The number [fmt_power] renders with one decimal, and its unit. *)
Definition fmt_power (p : R) : R * string :=
  if Rlt_dec p 1e3 then (p, "mW"%string) else (p / 1e3, "W"%string).

(** ** Simulation *)

(** The per-band accumulators (lines 73-77). *)
Record Sums : Type := mkSums {
  power_baseline : R;
  power_d2d : R;
  rate_baseline : R;
  rate_d2d : R;
  parents : gset Z
}.

Definition sums0 : Sums := mkSums 0 0 0 0 ∅.

(** The body of the baseline loop (lines 80-83). *)
Definition baseline_body (bs : Node) (pt fc bw : R) (ue : Node) (s : Sums)
  : M Sums :=
  d_bs <~ haversine_m ue (Latitude bs) (Longitude bs) ;;
  r <- snr_rayleigh pt d_bs fc UE_TX_GAIN BS_RX_GAIN bw ;;
  let snr_lin := Rmax r 0.01 in
  c <~ capacity bw snr_lin ;;
  ret (mkSums (power_baseline s + (d_bs / 1000) ^ PATH_EXP) (power_d2d s)
              (rate_baseline s + MIMO_STREAMS * c) (rate_d2d s) (parents s)).

(** [bs if pd.isna(ue["Parent ID"]) else df[df["ID"] == ue["Parent ID"]].iloc[0]] *)
Definition resolve_parent (df : DataFrame) (bs ue : Node) : result Node :=
  match Parent_ID ue with
  | None => Ok bs
  | Some pid => find_id df pid
  end.

(** [BS_RX_GAIN if parent["ID"] == bs["ID"] else PARENT_RX_GAIN] *)
Definition rx_gain (bs parent : Node) : R :=
  if decide (ID parent = ID bs) then BS_RX_GAIN else PARENT_RX_GAIN.

(** [if parent["ID"] != bs["ID"]: parents.add(parent["ID"])] *)
Definition add_parent (bs parent : Node) (ps : gset Z) : gset Z :=
  if decide (ID parent <> ID bs) then ps ∪ {[ ID parent ]} else ps.

(** The body of the D2D loop (lines 86-93). *)
Definition d2d_body (df : DataFrame) (bs : Node) (pt fc bw : R)
    (ue : Node) (s : Sums) : M Sums :=
  parent <~ resolve_parent df bs ue ;;
  d_up <~ haversine_m ue (Latitude parent) (Longitude parent) ;;
  let g_rx := rx_gain bs parent in
  r <- snr_rayleigh pt d_up fc UE_TX_GAIN g_rx bw ;;
  let snr_lin_up := Rmax r 0.01 in
  c <~ capacity bw snr_lin_up ;;
  ret (mkSums (power_baseline s) (power_d2d s + (d_up / 1000) ^ PATH_EXP)
              (rate_baseline s) (rate_d2d s + MIMO_STREAMS * c)
              (add_parent bs parent (parents s))).

(** The body of the loop over [parents] (lines 96-100). *)
Definition relay_body (df : DataFrame) (bs : Node) (pt fc bw : R)
    (pid : Z) (s : Sums) : M Sums :=
  parent <~ find_id df pid ;;
  d_pb <~ haversine_m parent (Latitude bs) (Longitude bs) ;;
  r <- snr_rayleigh pt d_pb fc UE_TX_GAIN BS_RX_GAIN bw ;;
  let snr_lin_pb := Rmax r 0.01 in
  c <~ capacity bw snr_lin_pb ;;
  ret (mkSums (power_baseline s) (power_d2d s + (d_pb / 1000) ^ PATH_EXP)
              (rate_baseline s) (rate_d2d s + MIMO_STREAMS * c) (parents s)).

(** The accumulators of one band after its three loops (lines 71-100): the
    sums over the UEs, then over the set of relays in the order the set
    yields them. *)
Definition band_sums (df : DataFrame) (bs : Node) (band : NRBand) : M Sums :=
  let pt := dbm_to_w (eirp_dbm band) in
  s1 <- for_each (select_ues df) (baseline_body bs pt (fc band) (bw band)) sums0 ;;
  s2 <- for_each (select_ues df) (d2d_body df bs pt (fc band) (bw band)) s1 ;;
  for_each (elements (parents s2)) (relay_body df bs pt (fc band) (bw band)) s2.

Record Row : Type := mkRow {
  Band : string;
  Frequency_GHz : R;
  Baseline_Power : R * string;
  D2D_Power : R * string;
  Power_Savings : R;
  Baseline_Rate : R;
  D2D_Rate : R;
  Sum_Rate_Gain : R
}.

(** The two derived percentages (lines 102-103); the power quotient is
    evaluated first. *)
Definition percentages (s : Sums) : result (R * R) :=
  q <-? py_div (power_d2d s) (power_baseline s) ;;
  let power_saving := (1 - q) * 100 in
  r <-? py_div (rate_d2d s - rate_baseline s) (rate_baseline s) ;;
  let rate_gain := r * 100 in
  Ok (power_saving, rate_gain).

(** One iteration of the loop over the bands (lines 70-114): the row it
    appends. *)
Definition run_band (df : DataFrame) (bs : Node) (tb : string * NRBand) : M Row :=
  let (tag, band) := tb in
  s <- band_sums df bs band ;;
  pr <~ percentages s ;;
  ret (mkRow tag (fc band / 1e9)
             (fmt_power (power_baseline s)) (fmt_power (power_d2d s))
             (fst pr)
             (rate_baseline s / 1e9) (rate_d2d s / 1e9)
             (snd pr)).

(** [results.append(...)] over the bands, in order. *)
Definition run_bands (df : DataFrame) (bs : Node) (bands : list (string * NRBand))
  : M (list Row) :=
  for_each bands (fun tb results =>
                    row <- run_band df bs tb ;; ret (results ++ [row])) [].

(** The script from the loaded table to the rows of the printed table. *)
Definition simulate (df : DataFrame) : M (list Row) :=
  bs <~ find_bs df ;;
  run_bands df bs NR_BANDS.

(** ** The received power on binary64 floats

    Lines 45-51 as Python evaluates them, on IEEE 754 binary64 numbers:
    the carrier wavelength, the path loss and the received power of
    [snr_rayleigh], up to the division by the path loss.  A float division
    by a zero raises [ZeroDivisionError]; [x ** n] is C's [pow], taken as
    correctly rounded, and raises [OverflowError] when a finite [x] gives an
    infinite power. *)
Module Binary64.

Inductive outcome (A : Type) : Type :=
| Returns (a : A)
| ZeroDivision
| Overflow.
Arguments Returns {A} a.
Arguments ZeroDivision {A}.
Arguments Overflow {A}.

Definition obind {A B} (o : outcome A) (k : A -> outcome B) : outcome B :=
  match o with
  | Returns a => k a
  | ZeroDivision => ZeroDivision
  | Overflow => Overflow
  end.

(** [x / y] *)
Definition fdiv (x y : float) : outcome float :=
  if PrimFloat.eqb y 0%float then ZeroDivision
  else Returns (PrimFloat.div x y).

(** The float nearest to the exact [n]-th power of [x]. *)
Definition nearest_pow (x : float) (n : positive) : float :=
  let odd := Z.odd (Z.pos n) in
  match Prim2SF x with
  | S754_finite s m e =>
      SF2Prim (binary_round prec emax (s && odd) (m ^ n)%positive (Z.pos n * e))
  | S754_zero s => SF2Prim (S754_zero (s && odd))
  | S754_infinity s => SF2Prim (S754_infinity (s && odd))
  | S754_nan => x
  end.

(** [x ** n] for a positive integer [n] *)
Definition fpow (x : float) (n : positive) : outcome float :=
  let r := nearest_pow x n in
  if PrimFloat.is_infinity r && negb (PrimFloat.is_infinity x)
  then Overflow else Returns r.

Definition C_LIGHT : float := 299792458%float.


Definition rayleigh_path_loss (fc d : float) : outcome float :=
  obind (fdiv C_LIGHT fc) (fun lambda_c =>
  obind (fpow d 3) (fun d3 =>
  obind (fpow lambda_c 2) (fun l2 =>
  fdiv d3 l2))).

(** [if d == 0: d = 0.1] *)
Definition clamp_d (d : float) : float :=
  if PrimFloat.eqb d 0%float then 0.1%float else d.


End Binary64.

(** * Vocabulary of the properties *)

(** ** Links, sums and generator states *)

(** [shift n g] is the generator after [n] draws. *)
Fixpoint shift (n : nat) (g : rng) : rng :=
  match n with
  | O => g
  | S n' => shift n' (next g)
  end.

(** The distance [haversine_m] returns. *)
Definition dist (row : Node) (bs_lat bs_lon : R) : R :=
  let a := haversine_a (Latitude row) (Longitude row) bs_lat bs_lon in
  EARTH_R * 2 * atan2 (sqrt a) (sqrt (1 - a)).

(** The path loss of a link of length [d], as [snr_rayleigh] uses it. *)
Definition path_loss_of (fc d : R) : R :=
  clamp_d d ^ PATH_EXP / (C_LIGHT / fc) ^ 2.

(** The SNR of a link when the sample drawn for its noise is [z]. *)
Definition snr_of (pt d fc g_tx g_rx bw z : R) : R :=
  pt * g_tx * g_rx / path_loss_of fc d / Rabs (noise_of bw z).

(** The two increments a link of length [d] with receive gain [g_rx] adds
    when the sample drawn for its noise is [z]. *)
Definition link_cap (pt d fc g_rx bw z : R) : R :=
  bw * (ln (1 + Rmax (snr_of pt d fc UE_TX_GAIN g_rx bw z) 0.01) / ln 2).

Definition link_rate (pt d fc g_rx bw z : R) : R :=
  MIMO_STREAMS * link_cap pt d fc g_rx bw z.

Definition link_power (d : R) : R := (d / 1000) ^ PATH_EXP.

(** The statements the three loop bodies share: the floored SNR, then the
    capacity, then the additions [F]. *)
Definition link_tail {X} (pt d fc g_rx bw : R) (F : R -> X) : M X :=
  r <- snr_rayleigh pt d fc UE_TX_GAIN g_rx bw ;;
  let snr_lin := Rmax r 0.01 in
  c <~ capacity bw snr_lin ;;
  ret (F c).

Definition baseline_step (bs : Node) (pt fc bw : R) (ue : Node) (z : R)
    (s : Sums) : Sums :=
  let d := dist ue (Latitude bs) (Longitude bs) in
  mkSums (power_baseline s + link_power d) (power_d2d s)
         (rate_baseline s + link_rate pt d fc BS_RX_GAIN bw z) (rate_d2d s)
         (parents s).

Definition d2d_step (bs : Node) (pt fc bw : R) (ue parent : Node) (z : R)
    (s : Sums) : Sums :=
  let d := dist ue (Latitude parent) (Longitude parent) in
  mkSums (power_baseline s) (power_d2d s + link_power d)
         (rate_baseline s) (rate_d2d s + link_rate pt d fc (rx_gain bs parent) bw z)
         (add_parent bs parent (parents s)).

Definition relay_step (bs : Node) (pt fc bw : R) (parent : Node) (z : R)
    (s : Sums) : Sums :=
  let d := dist parent (Latitude bs) (Longitude bs) in
  mkSums (power_baseline s) (power_d2d s + link_power d)
         (rate_baseline s) (rate_d2d s + link_rate pt d fc BS_RX_GAIN bw z)
         (parents s).

(** A link is a distance and a receive gain.  [rate_sum] adds the rates of
    a list of links, the k-th link drawing the k-th sample. *)
Fixpoint rate_sum (pt fc bw : R) (ls : list (R * R)) (g : rng) : R :=
  match ls with
  | [] => 0
  | (d, g_rx) :: ls' =>
      link_rate pt d fc g_rx bw (g 0%nat) + rate_sum pt fc bw ls' (next g)
  end.

Fixpoint power_sum (ls : list (R * R)) : R :=
  match ls with
  | [] => 0
  | (d, _) :: ls' => link_power d + power_sum ls'
  end.

Definition baseline_link (bs ue : Node) : R * R :=
  (dist ue (Latitude bs) (Longitude bs), BS_RX_GAIN).

(** The parent of a UE when it resolves. *)
Definition parent_of (df : DataFrame) (bs ue : Node) : Node :=
  match resolve_parent df bs ue with
  | Ok parent => parent
  | Raise _ => bs
  end.

Definition uplink (df : DataFrame) (bs ue : Node) : R * R :=
  let parent := parent_of df bs ue in
  (dist ue (Latitude parent) (Longitude parent), rx_gain bs parent).

(** The identifiers of the parents that are not the base station. *)
Definition relay_ids (df : DataFrame) (bs : Node) (ues : list Node) : gset Z :=
  list_to_set (filter (fun i => i <> ID bs)
                      (map (fun ue => ID (parent_of df bs ue)) ues)).

Definition node_of (df : DataFrame) (bs : Node) (pid : Z) : Node :=
  match find_id df pid with
  | Ok parent => parent
  | Raise _ => bs
  end.

Definition relay_link (df : DataFrame) (bs : Node) (pid : Z) : R * R :=
  (dist (node_of df bs pid) (Latitude bs) (Longitude bs), BS_RX_GAIN).

(** Every UE's parent reference resolves. *)
Definition resolves (df : DataFrame) (bs : Node) (ues : list Node) : Prop :=
  Forall (fun ue => exists parent, resolve_parent df bs ue = Ok parent) ues.

(** No sample makes the noise power vanish. *)
Definition audible (bw : R) (g : rng) : Prop :=
  forall k, noise_of bw (g k) <> 0.

(** The relay hops of a band, in the order the set yields its elements. *)
Definition relay_hops (df : DataFrame) (bs : Node) : list Z :=
  elements (relay_ids df bs (select_ues df)).

(** The number of samples a band draws: one per link. *)
Definition draws (df : DataFrame) (bs : Node) : nat :=
  (length (select_ues df) + length (select_ues df)
   + length (relay_hops df bs))%nat.

(** The row of a band whose accumulators are [s]. *)
Definition row_of (tag : string) (band : NRBand) (s : Sums) : Row :=
  mkRow tag (fc band / 1e9)
        (fmt_power (power_baseline s)) (fmt_power (power_d2d s))
        ((1 - power_d2d s / power_baseline s) * 100)
        (rate_baseline s / 1e9) (rate_d2d s / 1e9)
        ((rate_d2d s - rate_baseline s) / rate_baseline s * 100).

(** A band is usable when its carrier and bandwidth are positive. *)
Definition band_ok (tb : string * NRBand) : Prop :=
  0 < fc (snd tb) /\ 0 < bw (snd tb).

(** ** Example topologies and generator states *)

Definition bs0 : Node := mkNode "BaseStation" 0 0 0 None.
Definition ue1 : Node := mkNode "UE1" 1 0 0.01 None.
Definition ue2 : Node := mkNode "UE2" 2 0 0.02 (Some 1%Z).
Definition ue3 : Node := mkNode "UE3" 3 0 0.03 (Some 1%Z).
(** A UE that names the base station itself as its parent. *)
Definition ue4 : Node := mkNode "UE4" 4 0 0.04 (Some 0%Z).

(** No UE at all. *)
Definition only_bs : DataFrame := [bs0].
(** One UE about 1.1 km east of the base station, no parent. *)
Definition one_ue : DataFrame := [bs0; ue1].
(** Two UEs relayed through the same third one. *)
Definition shared_relay : DataFrame := [bs0; ue1; ue2; ue3].

(** One UE at the base station's own position. *)
Definition ue0 : Node := mkNode "UE0" 5 0 0 None.
Definition at_bs : DataFrame := [bs0; ue0].

(** Every sample at the mean, and every sample one deviation above it. *)
Definition quiet : rng := fun _ => 0.
Definition loud : rng := fun _ => 1.

(** The row of a UE with its parent reference removed. *)
Definition direct (ue : Node) : Node :=
  mkNode (Name ue) (ID ue) (Latitude ue) (Longitude ue) None.

(** A UE that names the base station's own identifier as its parent,
    next to a direct one. *)
Definition names_bs : DataFrame := [bs0; ue1; ue4].

(** A loop body that adds [inc] to a rate sum for a link of length [d] and
    receive gain [g_rx]: the SNR it passes to [capacity] is the one
    [snr_rayleigh] returned, floored at 0.01. *)
Definition floored_link (pt d fc g_rx bw : R) (g : rng) (inc : R) : Prop :=
  exists r c,
    snr_rayleigh pt d fc UE_TX_GAIN g_rx bw g = Ok (r, next g) /\
    0.01 <= Rmax r 0.01 /\
    capacity bw (Rmax r 0.01) = Ok c /\
    (0 < bw -> 0 < c) /\
    inc = MIMO_STREAMS * c.

(** ** Failing parent references *)

(** A UE whose Parent ID matches no row of the table. *)
Definition dangling (df : DataFrame) (ue : Node) : Prop :=
  exists pid, Parent_ID ue = Some pid /\ Forall (fun n => ID n <> pid) df.

(** A UE that names a parent missing from the table. *)
Definition ue5 : Node := mkNode "UE5" 6 0 0.05 (Some 99%Z).
Definition orphan : DataFrame := [bs0; ue1; ue5].

(** ** Bounds on the rates *)

(** The least rate a link adds: the capacity at the SNR floor over the MIMO
    streams. *)
Definition floor_rate (bw : R) : R :=
  MIMO_STREAMS * (bw * (ln (1 + 0.01) / ln 2)).

(** A UE that names itself as its parent. *)
Definition ue6 : Node := mkNode "UE6" 7 0 0.06 (Some 7%Z).
Definition own_parent : DataFrame := [bs0; ue6].

(** * Properties *)

(** ** The monad *)

Lemma bind_Ok {A B} (m : M A) (k : A -> M B) g a g1 :
  m g = Ok (a, g1) -> bind m k g = k a g1.
Proof. unfold bind. now intros ->. Qed.

Lemma bind_Raise {A B} (m : M A) (k : A -> M B) g e :
  m g = Raise e -> bind m k g = Raise e.
Proof. unfold bind. now intros ->. Qed.

Lemma bind_Ok_inv {A B} (m : M A) (k : A -> M B) g b g' :
  bind m k g = Ok (b, g') ->
  exists a g1, m g = Ok (a, g1) /\ k a g1 = Ok (b, g').
Proof.
  unfold bind. destruct (m g) as [[a g1]|e]; [|discriminate].
  intros H. now exists a, g1.
Qed.

Lemma shift_at n : forall g k, shift n g k = g (n + k)%nat.
Proof.
  induction n as [|n IH]; intros g k; cbn [shift]; [reflexivity|].
  rewrite IH. unfold next. f_equal; lia.
Qed.

Lemma shift_add n m : forall g, shift (n + m) g = shift m (shift n g).
Proof.
  induction n as [|n IH]; intros g; cbn [shift Nat.add]; [reflexivity|].
  apply IH.
Qed.

(** ** Arithmetic *)

Lemma py_div_ok x y : y <> 0 -> py_div x y = Ok (x / y).
Proof. intros H. unfold py_div. now destruct (Req_dec_T y 0). Qed.

Lemma py_div_zero x : py_div x 0 = Raise ZeroDivisionError.
Proof. unfold py_div. now destruct (Req_dec_T 0 0). Qed.

Lemma py_sqrt_ok x : 0 <= x -> py_sqrt x = Ok (sqrt x).
Proof. intros H. unfold py_sqrt. destruct (Rlt_dec x 0); [lra|reflexivity]. Qed.

Lemma py_log2_ok x : 0 < x -> py_log2 x = Ok (ln x / ln 2).
Proof. intros H. unfold py_log2. destruct (Rle_dec x 0); [lra|reflexivity]. Qed.

Lemma ln2_pos : 0 < ln 2.
Proof. rewrite <- ln_1. apply ln_increasing; lra. Qed.

Lemma log2_pos x : 1 < x -> 0 < ln x / ln 2.
Proof.
  intros H. apply Rdiv_lt_0_compat; [|apply ln2_pos].
  rewrite <- ln_1. apply ln_increasing; lra.
Qed.

Lemma Rpower_pos x y : 0 < Rpower x y.
Proof. unfold Rpower. apply exp_pos. Qed.

Lemma BS_RX_GAIN_pos : 0 < BS_RX_GAIN.
Proof. apply Rpower_pos. Qed.

Lemma UE_TX_GAIN_one : UE_TX_GAIN = 1.
Proof.
  unfold UE_TX_GAIN, UE_TX_GAIN_dBi, Rpower.
  replace (0 / 10 * ln 10) with 0 by lra. apply exp_0.
Qed.

Lemma dbm_to_w_30 : dbm_to_w 30 = 1.
Proof.
  unfold dbm_to_w, Rpower.
  replace ((30 - 30) / 10 * ln 10) with 0 by lra. apply exp_0.
Qed.

(** ** Geometry *)

(** The half-angle sine term lies in the unit interval, so neither square
    root of [haversine_m] leaves its domain. *)
Lemma haversine_a_bounds lat lon bs_lat bs_lon :
  0 <= haversine_a lat lon bs_lat bs_lon <= 1.
Proof.
  unfold haversine_a, radians.
  set (x := lat * (PI / 180)). set (y := bs_lat * (PI / 180)).
  set (t := sin ((bs_lon - lon) * (PI / 180) / 2)).
  replace ((bs_lat - lat) * (PI / 180) / 2) with ((y - x) / 2)
    by (unfold x, y; lra).
  assert (Hu : sin ((y - x) / 2) ^ 2 = (1 - cos (y - x)) / 2).
  { pose proof (cos_2a_sin ((y - x) / 2)) as H.
    replace (2 * ((y - x) / 2)) with (y - x) in H by lra. lra. }
  rewrite Hu, cos_minus.
  pose proof (COS_bound (y - x)) as [Hm1 Hm2]. rewrite cos_minus in Hm1, Hm2.
  pose proof (COS_bound (y + x)) as [Hp1 Hp2]. rewrite cos_plus in Hp1, Hp2.
  pose proof (SIN_bound ((bs_lon - lon) * (PI / 180) / 2)) as [Ht1 Ht2].
  fold t in Ht1, Ht2.
  assert (Ht : 0 <= t ^ 2 <= 1) by nra.
  set (cc := cos y * cos x) in *. set (ss := sin y * sin x) in *.
  replace (cos x * cos y) with cc by (unfold cc; ring).
  set (T := t ^ 2) in *. split; nra.
Qed.

Lemma haversine_m_total row bs_lat bs_lon :
  haversine_m row bs_lat bs_lon = Ok (dist row bs_lat bs_lon).
Proof.
  unfold haversine_m, dist.
  pose proof (haversine_a_bounds (Latitude row) (Longitude row) bs_lat bs_lon)
    as [H0 H1].
  cbv zeta. rewrite py_sqrt_ok by exact H0. cbn [rbind].
  rewrite py_sqrt_ok by lra. reflexivity.
Qed.

Lemma atan_nonneg x : 0 <= x -> 0 <= atan x.
Proof.
  intros [H| <-]; [|rewrite atan_0; lra].
  left. rewrite <- atan_0. now apply atan_increasing.
Qed.

Lemma atan2_nonneg y x : 0 <= y -> 0 <= x -> 0 <= atan2 y x.
Proof.
  intros Hy Hx. unfold atan2. pose proof PI_RGT_0.
  destruct (Rlt_dec 0 x).
  - apply atan_nonneg. unfold Rdiv. apply Rmult_le_pos; [lra|].
    left. now apply Rinv_0_lt_compat.
  - destruct (Rlt_dec x 0); [lra|].
    destruct (Rlt_dec 0 y); [lra|].
    destruct (Rlt_dec y 0); lra.
Qed.

Lemma atan2_pos y x : 0 < y -> 0 <= x -> 0 < atan2 y x.
Proof.
  intros Hy Hx. unfold atan2. pose proof PI_RGT_0.
  destruct (Rlt_dec 0 x).
  - rewrite <- atan_0. apply atan_increasing. now apply Rdiv_lt_0_compat.
  - destruct (Rlt_dec x 0); [lra|].
    destruct (Rlt_dec 0 y); lra.
Qed.

Lemma dist_nonneg row bs_lat bs_lon : 0 <= dist row bs_lat bs_lon.
Proof.
  unfold dist. cbv zeta.
  assert (0 <= atan2 (sqrt (haversine_a (Latitude row) (Longitude row) bs_lat bs_lon))
                     (sqrt (1 - haversine_a (Latitude row) (Longitude row) bs_lat bs_lon)))
    by (apply atan2_nonneg; apply sqrt_pos).
  unfold EARTH_R. nra.
Qed.

Lemma dist_pos row bs_lat bs_lon :
  0 < haversine_a (Latitude row) (Longitude row) bs_lat bs_lon ->
  0 < dist row bs_lat bs_lon.
Proof.
  intros Ha. unfold dist. cbv zeta.
  assert (0 < atan2 (sqrt (haversine_a (Latitude row) (Longitude row) bs_lat bs_lon))
                    (sqrt (1 - haversine_a (Latitude row) (Longitude row) bs_lat bs_lon)))
    by (apply atan2_pos; [now apply sqrt_lt_R0 | apply sqrt_pos]).
  unfold EARTH_R. nra.
Qed.

(** The distance between a point and itself is 0. *)
Lemma dist_self row : dist row (Latitude row) (Longitude row) = 0.
Proof.
  unfold dist, haversine_a, radians. cbv zeta.
  replace ((Latitude row - Latitude row) * (PI / 180) / 2) with 0 by lra.
  replace ((Longitude row - Longitude row) * (PI / 180) / 2) with 0 by lra.
  rewrite sin_0.
  replace (0 ^ 2 + cos (Latitude row * (PI / 180))
                   * cos (Latitude row * (PI / 180)) * 0 ^ 2)
    with 0 by lra.
  rewrite Rminus_0_r, sqrt_0, sqrt_1. unfold atan2.
  destruct (Rlt_dec 0 1); [|lra].
  replace (0 / 1) with 0 by lra. rewrite atan_0. lra.
Qed.

(** ** Channel model *)

Lemma clamp_d_nonzero d : clamp_d d <> 0.
Proof. unfold clamp_d. destruct (Req_dec_T d 0); lra. Qed.

Lemma clamp_d_zero : clamp_d 0 = 0.1.
Proof. unfold clamp_d. destruct (Req_dec_T 0 0); [reflexivity|lra]. Qed.

Lemma clamp_d_id d : d <> 0 -> clamp_d d = d.
Proof. intros H. unfold clamp_d. now destruct (Req_dec_T d 0). Qed.

Lemma wavelength_sq_nonzero fc : fc <> 0 -> (C_LIGHT / fc) ^ 2 <> 0.
Proof.
  intros H. apply pow_nonzero. unfold Rdiv.
  apply Rmult_integral_contrapositive_currified.
  - unfold C_LIGHT. lra.
  - now apply Rinv_neq_0_compat.
Qed.

Lemma path_loss_of_nonzero fc d : fc <> 0 -> path_loss_of fc d <> 0.
Proof.
  intros H. unfold path_loss_of, Rdiv.
  apply Rmult_integral_contrapositive_currified.
  - apply pow_nonzero, clamp_d_nonzero.
  - apply Rinv_neq_0_compat. now apply wavelength_sq_nonzero.
Qed.

Lemma rayleigh_path_loss_ok fc d :
  fc <> 0 -> rayleigh_path_loss fc d = Ok (d ^ PATH_EXP / (C_LIGHT / fc) ^ 2).
Proof.
  intros H. unfold rayleigh_path_loss.
  rewrite py_div_ok by exact H. cbn [rbind].
  apply py_div_ok. now apply wavelength_sq_nonzero.
Qed.

Lemma rayleigh_path_loss_zero d :
  rayleigh_path_loss 0 d = Raise ZeroDivisionError.
Proof. unfold rayleigh_path_loss. now rewrite py_div_zero. Qed.

(** After the path loss, only the noise can make [snr_rayleigh] raise. *)
Lemma snr_rayleigh_noise pt d fc g_tx g_rx bw g :
  fc <> 0 ->
  snr_rayleigh pt d fc g_tx g_rx bw g =
  lift (py_div (pt * g_tx * g_rx / path_loss_of fc d)
               (Rabs (noise_of bw (g 0%nat)))) (next g).
Proof.
  intros H. unfold snr_rayleigh. cbv zeta.
  rewrite rayleigh_path_loss_ok by exact H.
  unfold bind at 1. cbn [lift].
  fold (path_loss_of fc d).
  rewrite py_div_ok by now apply path_loss_of_nonzero.
  unfold bind at 1. cbn [lift]. reflexivity.
Qed.

Lemma snr_rayleigh_ok pt d fc g_tx g_rx bw g :
  fc <> 0 -> noise_of bw (g 0%nat) <> 0 ->
  snr_rayleigh pt d fc g_tx g_rx bw g =
  Ok (snr_of pt d fc g_tx g_rx bw (g 0%nat), next g).
Proof.
  intros H Hn. rewrite snr_rayleigh_noise by exact H.
  rewrite py_div_ok; [reflexivity|].
  now apply Rabs_no_R0.
Qed.

Lemma snr_rayleigh_raise pt d fc g_tx g_rx bw g :
  fc = 0 \/ noise_of bw (g 0%nat) = 0 ->
  snr_rayleigh pt d fc g_tx g_rx bw g = Raise ZeroDivisionError.
Proof.
  intros [-> | Hn].
  - unfold snr_rayleigh. cbv zeta. now rewrite rayleigh_path_loss_zero.
  - destruct (Req_dec_T fc 0) as [-> | H].
    + unfold snr_rayleigh. cbv zeta. now rewrite rayleigh_path_loss_zero.
    + rewrite snr_rayleigh_noise by exact H.
      rewrite Hn, Rabs_R0, py_div_zero. reflexivity.
Qed.

Lemma capacity_ok bw snr_lin :
  -1 < snr_lin -> capacity bw snr_lin = Ok (bw * (ln (1 + snr_lin) / ln 2)).
Proof.
  intros H. unfold capacity. rewrite py_log2_ok by lra. reflexivity.
Qed.

Lemma floor_ge s : 0.01 <= Rmax s 0.01.
Proof. apply Rmax_r. Qed.

Lemma capacity_floor_pos bw s :
  0 < bw -> 0 < bw * (ln (1 + Rmax s 0.01) / ln 2).
Proof.
  intros H. pose proof (floor_ge s).
  apply Rmult_lt_0_compat; [exact H|]. apply log2_pos. lra.
Qed.

(** ** One link in a loop body *)

Lemma link_tail_ok {X} pt d fc g_rx bw (F : R -> X) g :
  fc <> 0 -> noise_of bw (g 0%nat) <> 0 ->
  link_tail pt d fc g_rx bw F g = Ok (F (link_cap pt d fc g_rx bw (g 0%nat)), next g).
Proof.
  intros H Hn. unfold link_tail.
  rewrite (bind_Ok _ _ _ _ _ (snr_rayleigh_ok pt d fc UE_TX_GAIN g_rx bw g H Hn)).
  cbv zeta. rewrite capacity_ok.
  - reflexivity.
  - pose proof (floor_ge (snr_of pt d fc UE_TX_GAIN g_rx bw (g 0%nat))). lra.
Qed.

Lemma link_tail_raise {X} pt d fc g_rx bw (F : R -> X) g :
  fc = 0 \/ noise_of bw (g 0%nat) = 0 ->
  link_tail pt d fc g_rx bw F g = Raise ZeroDivisionError.
Proof.
  intros H. unfold link_tail. apply bind_Raise. now apply snr_rayleigh_raise.
Qed.

Lemma link_tail_inv {X} pt d fc g_rx bw (F : R -> X) g x g' :
  link_tail pt d fc g_rx bw F g = Ok (x, g') ->
  fc <> 0 /\ noise_of bw (g 0%nat) <> 0 /\
  x = F (link_cap pt d fc g_rx bw (g 0%nat)) /\ g' = next g.
Proof.
  intros H.
  destruct (Req_dec_T fc 0) as [Hf|Hf];
    [rewrite link_tail_raise in H by (now left); discriminate|].
  destruct (Req_dec_T (noise_of bw (g 0%nat)) 0) as [Hn|Hn];
    [rewrite link_tail_raise in H by (now right); discriminate|].
  rewrite link_tail_ok in H by assumption.
  injection H as <- <-. auto.
Qed.

Lemma link_cap_pos pt d fc g_rx bw z : 0 < bw -> 0 < link_cap pt d fc g_rx bw z.
Proof. intros H. now apply capacity_floor_pos. Qed.

Lemma link_rate_pos pt d fc g_rx bw z : 0 < bw -> 0 < link_rate pt d fc g_rx bw z.
Proof.
  intros H. unfold link_rate, MIMO_STREAMS.
  pose proof (link_cap_pos pt d fc g_rx bw z H). lra.
Qed.

Lemma link_power_nonneg d : 0 <= d -> 0 <= link_power d.
Proof.
  intros H. unfold link_power. apply pow_le. lra.
Qed.

Lemma link_power_pos d : 0 < d -> 0 < link_power d.
Proof.
  intros H. unfold link_power. apply pow_lt. lra.
Qed.

(** *** The loop bodies as one link each *)

Lemma baseline_body_tail bs pt fc bw ue s g :
  baseline_body bs pt fc bw ue s g =
  link_tail pt (dist ue (Latitude bs) (Longitude bs)) fc BS_RX_GAIN bw
    (fun c => mkSums (power_baseline s
                      + (dist ue (Latitude bs) (Longitude bs) / 1000) ^ PATH_EXP)
                     (power_d2d s) (rate_baseline s + MIMO_STREAMS * c)
                     (rate_d2d s) (parents s)) g.
Proof.
  unfold baseline_body. rewrite haversine_m_total. reflexivity.
Qed.

Lemma d2d_body_tail df bs pt fc bw ue s g parent :
  resolve_parent df bs ue = Ok parent ->
  d2d_body df bs pt fc bw ue s g =
  link_tail pt (dist ue (Latitude parent) (Longitude parent)) fc
    (rx_gain bs parent) bw
    (fun c => mkSums (power_baseline s)
                     (power_d2d s
                      + (dist ue (Latitude parent) (Longitude parent) / 1000) ^ PATH_EXP)
                     (rate_baseline s) (rate_d2d s + MIMO_STREAMS * c)
                     (add_parent bs parent (parents s))) g.
Proof.
  intros Hp. unfold d2d_body. rewrite Hp.
  unfold bind at 1. cbn [lift]. rewrite haversine_m_total. reflexivity.
Qed.

Lemma relay_body_tail df bs pt fc bw pid s g parent :
  find_id df pid = Ok parent ->
  relay_body df bs pt fc bw pid s g =
  link_tail pt (dist parent (Latitude bs) (Longitude bs)) fc BS_RX_GAIN bw
    (fun c => mkSums (power_baseline s)
                     (power_d2d s
                      + (dist parent (Latitude bs) (Longitude bs) / 1000) ^ PATH_EXP)
                     (rate_baseline s) (rate_d2d s + MIMO_STREAMS * c)
                     (parents s)) g.
Proof.
  intros Hp. unfold relay_body. rewrite Hp.
  unfold bind at 1. cbn [lift]. rewrite haversine_m_total. reflexivity.
Qed.

Lemma d2d_body_unresolved df bs pt fc bw ue s g e :
  resolve_parent df bs ue = Raise e ->
  d2d_body df bs pt fc bw ue s g = Raise e.
Proof. intros Hp. unfold d2d_body. now rewrite Hp. Qed.

Lemma relay_body_unresolved df bs pt fc bw pid s g e :
  find_id df pid = Raise e ->
  relay_body df bs pt fc bw pid s g = Raise e.
Proof. intros Hp. unfold relay_body. now rewrite Hp. Qed.

Lemma baseline_body_inv bs pt fc bw ue s g s' g' :
  baseline_body bs pt fc bw ue s g = Ok (s', g') ->
  fc <> 0 /\ noise_of bw (g 0%nat) <> 0 /\
  s' = baseline_step bs pt fc bw ue (g 0%nat) s /\ g' = next g.
Proof.
  rewrite baseline_body_tail. intros H.
  apply link_tail_inv in H as (Hf & Hn & -> & ->). auto.
Qed.

Lemma baseline_body_ok bs pt fc bw ue s g :
  fc <> 0 -> noise_of bw (g 0%nat) <> 0 ->
  baseline_body bs pt fc bw ue s g =
  Ok (baseline_step bs pt fc bw ue (g 0%nat) s, next g).
Proof.
  intros Hf Hn. rewrite baseline_body_tail. now rewrite link_tail_ok.
Qed.

Lemma d2d_body_inv df bs pt fc bw ue s g s' g' :
  d2d_body df bs pt fc bw ue s g = Ok (s', g') ->
  exists parent, resolve_parent df bs ue = Ok parent /\
  fc <> 0 /\ noise_of bw (g 0%nat) <> 0 /\
  s' = d2d_step bs pt fc bw ue parent (g 0%nat) s /\ g' = next g.
Proof.
  intros H. destruct (resolve_parent df bs ue) as [parent|e] eqn:Hp.
  - rewrite (d2d_body_tail _ _ _ _ _ _ _ _ _ Hp) in H.
    apply link_tail_inv in H as (Hf & Hn & -> & ->). exists parent. auto.
  - rewrite (d2d_body_unresolved _ _ _ _ _ _ _ _ _ Hp) in H. discriminate.
Qed.

Lemma d2d_body_ok df bs pt fc bw ue s g parent :
  resolve_parent df bs ue = Ok parent ->
  fc <> 0 -> noise_of bw (g 0%nat) <> 0 ->
  d2d_body df bs pt fc bw ue s g =
  Ok (d2d_step bs pt fc bw ue parent (g 0%nat) s, next g).
Proof.
  intros Hp Hf Hn. rewrite (d2d_body_tail _ _ _ _ _ _ _ _ _ Hp).
  now rewrite link_tail_ok.
Qed.

Lemma relay_body_inv df bs pt fc bw pid s g s' g' :
  relay_body df bs pt fc bw pid s g = Ok (s', g') ->
  exists parent, find_id df pid = Ok parent /\
  fc <> 0 /\ noise_of bw (g 0%nat) <> 0 /\
  s' = relay_step bs pt fc bw parent (g 0%nat) s /\ g' = next g.
Proof.
  intros H. destruct (find_id df pid) as [parent|e] eqn:Hp.
  - rewrite (relay_body_tail _ _ _ _ _ _ _ _ _ Hp) in H.
    apply link_tail_inv in H as (Hf & Hn & -> & ->). exists parent. auto.
  - rewrite (relay_body_unresolved _ _ _ _ _ _ _ _ _ Hp) in H. discriminate.
Qed.

Lemma relay_body_ok df bs pt fc bw pid s g parent :
  find_id df pid = Ok parent ->
  fc <> 0 -> noise_of bw (g 0%nat) <> 0 ->
  relay_body df bs pt fc bw pid s g =
  Ok (relay_step bs pt fc bw parent (g 0%nat) s, next g).
Proof.
  intros Hp Hf Hn. rewrite (relay_body_tail _ _ _ _ _ _ _ _ _ Hp).
  now rewrite link_tail_ok.
Qed.

(** ** The loops *)

Section Loops.
Variables (df : DataFrame) (bs : Node) (pt fc bw : R).

Lemma baseline_loop_inv (l : list Node) : forall s g s' g',
  for_each l (baseline_body bs pt fc bw) s g = Ok (s', g') ->
  g' = shift (length l) g /\
  power_baseline s' = power_baseline s + power_sum (map (baseline_link bs) l) /\
  rate_baseline s' =
    rate_baseline s + rate_sum pt fc bw (map (baseline_link bs) l) g /\
  power_d2d s' = power_d2d s /\ rate_d2d s' = rate_d2d s /\
  parents s' = parents s.
Proof.
  induction l as [|ue l IH]; intros s g s' g' H; cbn [for_each] in H.
  - injection H; intros <- <-. cbn. repeat split; lra.
  - apply bind_Ok_inv in H as (s1 & g1 & Hb & Hl).
    apply baseline_body_inv in Hb as (_ & _ & -> & ->).
    apply IH in Hl as (-> & Hpb & Hrb & Hpd & Hrd & Hps).
    cbn [map length shift rate_sum power_sum baseline_link].
    rewrite Hpb, Hrb, Hpd, Hrd, Hps. cbn. repeat split; lra.
Qed.

Lemma d2d_loop_inv (l : list Node) : forall s g s' g',
  for_each l (d2d_body df bs pt fc bw) s g = Ok (s', g') ->
  g' = shift (length l) g /\
  power_d2d s' = power_d2d s + power_sum (map (uplink df bs) l) /\
  rate_d2d s' = rate_d2d s + rate_sum pt fc bw (map (uplink df bs) l) g /\
  power_baseline s' = power_baseline s /\
  rate_baseline s' = rate_baseline s /\
  parents s' = parents s ∪ relay_ids df bs l.
Proof.
  induction l as [|ue l IH]; intros s g s' g' H; cbn [for_each] in H.
  - injection H; intros <- <-. cbn. repeat split; try lra.
    unfold relay_ids. cbn. now rewrite union_empty_r_L.
  - apply bind_Ok_inv in H as (s1 & g1 & Hb & Hl).
    apply d2d_body_inv in Hb as (parent & Hp & _ & _ & -> & ->).
    apply IH in Hl as (-> & Hpd & Hrd & Hpb & Hrb & Hps).
    assert (Hpo : parent_of df bs ue = parent)
      by (unfold parent_of; now rewrite Hp).
    assert (Hup : uplink df bs ue =
                  (dist ue (Latitude parent) (Longitude parent), rx_gain bs parent))
      by (unfold uplink; now rewrite Hpo).
    cbn [map length shift rate_sum power_sum]. rewrite Hup.
    rewrite Hpd, Hrd, Hpb, Hrb, Hps. cbn [power_d2d rate_d2d power_baseline
      rate_baseline parents d2d_step].
    repeat split; try lra.
    unfold relay_ids. cbn [map]. rewrite Hpo.
    unfold add_parent. rewrite filter_cons.
    destruct (decide (ID parent <> ID bs)); [|reflexivity].
    now rewrite list_to_set_cons, (assoc_L (∪)).
Qed.

Lemma relay_loop_inv (l : list Z) : forall s g s' g',
  for_each l (relay_body df bs pt fc bw) s g = Ok (s', g') ->
  g' = shift (length l) g /\
  power_d2d s' = power_d2d s + power_sum (map (relay_link df bs) l) /\
  rate_d2d s' = rate_d2d s + rate_sum pt fc bw (map (relay_link df bs) l) g /\
  power_baseline s' = power_baseline s /\
  rate_baseline s' = rate_baseline s /\
  parents s' = parents s.
Proof.
  induction l as [|pid l IH]; intros s g s' g' H; cbn [for_each] in H.
  - injection H; intros <- <-. cbn. repeat split; lra.
  - apply bind_Ok_inv in H as (s1 & g1 & Hb & Hl).
    apply relay_body_inv in Hb as (parent & Hp & _ & _ & -> & ->).
    apply IH in Hl as (-> & Hpd & Hrd & Hpb & Hrb & Hps).
    assert (Hrl : relay_link df bs pid =
                  (dist parent (Latitude bs) (Longitude bs), BS_RX_GAIN))
      by (unfold relay_link, node_of; now rewrite Hp).
    cbn [map length shift rate_sum power_sum]. rewrite Hrl.
    rewrite Hpd, Hrd, Hpb, Hrb, Hps. cbn. repeat split; lra.
Qed.
End Loops.

(** ** Row selection *)

Lemma iloc0_Ok_inv {A} (sel : list A) x : iloc0 sel = Ok x -> x ∈ sel.
Proof. destruct sel as [|y sel]; [discriminate|]. intros [= ->]. left. Qed.

Lemma iloc0_elem {A} (sel : list A) x : x ∈ sel -> exists y, iloc0 sel = Ok y.
Proof. destruct sel as [|y sel]; [inversion 1|]. intros _. now exists y. Qed.

Lemma find_id_Ok_inv df pid p : find_id df pid = Ok p -> ID p = pid /\ p ∈ df.
Proof.
  intros H. apply iloc0_Ok_inv in H.
  apply list_elem_of_filter in H. exact H.
Qed.

Lemma find_id_ID df pid p : find_id df pid = Ok p -> find_id df (ID p) = Ok p.
Proof.
  intros H. destruct (find_id_Ok_inv _ _ _ H) as [-> _]. exact H.
Qed.

Lemma find_id_elem df n : n ∈ df -> exists p, find_id df (ID n) = Ok p.
Proof.
  intros H. apply (iloc0_elem _ n). apply list_elem_of_filter. auto.
Qed.

Lemma find_bs_Ok_inv df bs : find_bs df = Ok bs -> is_bs bs /\ bs ∈ df.
Proof.
  intros H. apply iloc0_Ok_inv in H.
  apply list_elem_of_filter in H. exact H.
Qed.

(** With unique identifiers the look-up by identifier returns the row. *)
Lemma find_id_unique df n :
  NoDup (map ID df) -> n ∈ df -> find_id df (ID n) = Ok n.
Proof.
  unfold find_id. induction df as [|m df IH]; intros Hnd Hin; [inversion Hin|].
  cbn [map] in Hnd. apply NoDup_cons in Hnd as [Hm Hnd].
  rewrite filter_cons. destruct (decide (ID m = ID n)) as [Heq|Hne].
  - cbn [iloc0]. f_equal. apply elem_of_cons in Hin as [->|Hin]; [reflexivity|].
    exfalso. apply Hm. rewrite Heq. apply list_elem_of_fmap. now exists n.
  - apply elem_of_cons in Hin as [->|Hin]; [congruence|]. now apply IH.
Qed.

Lemma resolve_parent_relay df bs ue parent :
  resolve_parent df bs ue = Ok parent -> ID parent <> ID bs ->
  find_id df (ID parent) = Ok parent.
Proof.
  unfold resolve_parent. destruct (Parent_ID ue) as [pid|].
  - intros H _. now apply find_id_ID in H.
  - intros [= ->] H. congruence.
Qed.

Lemma elem_of_relay_ids df bs ues pid :
  pid ∈ relay_ids df bs ues <->
  pid <> ID bs /\ exists ue, ue ∈ ues /\ pid = ID (parent_of df bs ue).
Proof.
  unfold relay_ids. rewrite elem_of_list_to_set, list_elem_of_filter.
  rewrite list_elem_of_fmap. split.
  - intros [H (ue & -> & Hue)]. split; [exact H|]. now exists ue.
  - intros [H (ue & Hue & ->)]. split; [exact H|]. now exists ue.
Qed.

Lemma relay_ids_resolve df bs ues :
  resolves df bs ues ->
  Forall (fun pid => exists parent, find_id df pid = Ok parent)
         (elements (relay_ids df bs ues)).
Proof.
  intros Hres. apply Forall_forall. intros pid Hin.
  apply elem_of_elements, elem_of_relay_ids in Hin as [Hne (ue & Hue & ->)].
  unfold resolves in Hres. rewrite Forall_forall in Hres.
  destruct (Hres ue Hue) as [parent Hp].
  unfold parent_of in *. rewrite Hp in *.
  exists parent. now apply (resolve_parent_relay df bs ue).
Qed.

(** ** The loops run to their end *)

Section LoopsRun.
Variables (df : DataFrame) (bs : Node) (pt fc bw : R).
Hypothesis fc_nonzero : fc <> 0.

Lemma audible_next g : audible bw g -> audible bw (next g).
Proof. intros H k. apply H. Qed.

Lemma audible_shift n g : audible bw g -> audible bw (shift n g).
Proof. intros H k. rewrite shift_at. apply H. Qed.

Lemma baseline_loop_ok (l : list Node) : forall s g,
  audible bw g ->
  exists s', for_each l (baseline_body bs pt fc bw) s g
             = Ok (s', shift (length l) g).
Proof.
  induction l as [|ue l IH]; intros s g Hg; cbn [for_each length shift].
  - now exists s.
  - rewrite (bind_Ok _ _ _ _ _
               (baseline_body_ok bs pt fc bw ue s g fc_nonzero (Hg 0%nat))).
    apply IH. now apply audible_next.
Qed.

Lemma d2d_loop_ok (l : list Node) : forall s g,
  audible bw g -> resolves df bs l ->
  exists s', for_each l (d2d_body df bs pt fc bw) s g
             = Ok (s', shift (length l) g).
Proof.
  induction l as [|ue l IH]; intros s g Hg Hres; cbn [for_each length shift].
  - now exists s.
  - apply Forall_cons in Hres as [[parent Hp] Hres].
    rewrite (bind_Ok _ _ _ _ _
               (d2d_body_ok df bs pt fc bw ue s g parent Hp fc_nonzero (Hg 0%nat))).
    apply IH; [now apply audible_next | exact Hres].
Qed.

Lemma relay_loop_ok (l : list Z) : forall s g,
  audible bw g ->
  Forall (fun pid => exists parent, find_id df pid = Ok parent) l ->
  exists s', for_each l (relay_body df bs pt fc bw) s g
             = Ok (s', shift (length l) g).
Proof.
  induction l as [|pid l IH]; intros s g Hg Hres; cbn [for_each length shift].
  - now exists s.
  - apply Forall_cons in Hres as [[parent Hp] Hres].
    rewrite (bind_Ok _ _ _ _ _
               (relay_body_ok df bs pt fc bw pid s g parent Hp fc_nonzero (Hg 0%nat))).
    apply IH; [now apply audible_next | exact Hres].
Qed.
End LoopsRun.

(** ** One band *)

(** What a band's loops leave in the accumulators, when they end. *)
Lemma band_sums_inv df bs band g s g' :
  band_sums df bs band g = Ok (s, g') ->
  let pt := dbm_to_w (eirp_dbm band) in
  let ues := select_ues df in
  let n := length ues in
  g' = shift (draws df bs) g /\
  parents s = relay_ids df bs ues /\
  power_baseline s = power_sum (map (baseline_link bs) ues) /\
  rate_baseline s = rate_sum pt (fc band) (bw band) (map (baseline_link bs) ues) g /\
  power_d2d s = power_sum (map (uplink df bs) ues)
                + power_sum (map (relay_link df bs) (relay_hops df bs)) /\
  rate_d2d s = rate_sum pt (fc band) (bw band) (map (uplink df bs) ues) (shift n g)
               + rate_sum pt (fc band) (bw band)
                   (map (relay_link df bs) (relay_hops df bs)) (shift (n + n) g).
Proof.
  unfold band_sums. cbv zeta. intros H.
  apply bind_Ok_inv in H as (s1 & g1 & H1 & H).
  apply bind_Ok_inv in H as (s2 & g2 & H2 & H3).
  apply baseline_loop_inv in H1 as (-> & Hpb1 & Hrb1 & Hpd1 & Hrd1 & Hps1).
  apply d2d_loop_inv in H2 as (-> & Hpd2 & Hrd2 & Hpb2 & Hrb2 & Hps2).
  assert (Hps : parents s2 = relay_ids df bs (select_ues df)).
  { rewrite Hps2, Hps1. cbn. apply union_empty_l_L. }
  rewrite Hps in H3. fold (relay_hops df bs) in H3.
  apply relay_loop_inv in H3 as (-> & Hpd3 & Hrd3 & Hpb3 & Hrb3 & Hps3).
  unfold draws. rewrite !shift_add.
  rewrite Hps3, Hpb3, Hrb3, Hpd3, Hrd3, Hpd2, Hrd2, Hpb2, Hrb2,
    Hpb1, Hrb1, Hpd1, Hrd1, Hps.
  cbn [sums0 power_baseline rate_baseline power_d2d rate_d2d].
  repeat split; lra.
Qed.

(** A band's loops end when the carrier frequency is not zero, no noise
    draw vanishes and every parent reference resolves. *)
Lemma band_sums_ok df bs band g :
  fc band <> 0 -> audible (bw band) g -> resolves df bs (select_ues df) ->
  exists s, band_sums df bs band g = Ok (s, shift (draws df bs) g).
Proof.
  intros Hf Hg Hres. unfold band_sums. cbv zeta.
  set (pt := dbm_to_w (eirp_dbm band)).
  destruct (baseline_loop_ok bs pt _ _ Hf (select_ues df) sums0 g Hg)
    as [s1 H1].
  rewrite (bind_Ok _ _ _ _ _ H1).
  destruct (d2d_loop_ok df bs pt _ _ Hf (select_ues df) s1
              (shift (length (select_ues df)) g)
              (audible_shift _ _ _ Hg) Hres) as [s2 H2].
  rewrite (bind_Ok _ _ _ _ _ H2).
  pose proof (d2d_loop_inv _ _ _ _ _ _ _ _ _ _ H2) as (_ & _ & _ & _ & _ & Hps2).
  pose proof (baseline_loop_inv _ _ _ _ _ _ _ _ _ H1) as (_ & _ & _ & _ & _ & Hps1).
  assert (Hps : parents s2 = relay_ids df bs (select_ues df)).
  { rewrite Hps2, Hps1. cbn. apply union_empty_l_L. }
  rewrite Hps. fold (relay_hops df bs).
  destruct (relay_loop_ok df bs pt (fc band) (bw band) Hf (relay_hops df bs) s2
              (shift (length (select_ues df))
                 (shift (length (select_ues df)) g))) as [s3 H3].
  - now do 2 apply audible_shift.
  - now apply relay_ids_resolve.
  - exists s3. rewrite H3. unfold draws. now rewrite !shift_add.
Qed.

Lemma power_sum_nonneg ls : Forall (fun l => 0 <= fst l) ls -> 0 <= power_sum ls.
Proof.
  induction 1 as [|[d gr] ls Hd _ IH]; cbn [power_sum]; [lra|].
  pose proof (link_power_nonneg d Hd). lra.
Qed.

Lemma rate_sum_nonneg pt fc bw ls : forall g,
  0 < bw -> 0 <= rate_sum pt fc bw ls g.
Proof.
  induction ls as [|[d gr] ls IH]; intros g Hbw; cbn [rate_sum]; [lra|].
  pose proof (link_rate_pos pt d fc gr bw (g 0%nat) Hbw).
  pose proof (IH (next g) Hbw). lra.
Qed.

Lemma rate_sum_pos pt fc bw ls g :
  0 < bw -> ls <> [] -> 0 < rate_sum pt fc bw ls g.
Proof.
  intros Hbw Hne. destruct ls as [|[d gr] ls]; [congruence|]. cbn [rate_sum].
  pose proof (link_rate_pos pt d fc gr bw (g 0%nat) Hbw).
  pose proof (rate_sum_nonneg pt fc bw ls (next g) Hbw). lra.
Qed.

Lemma baseline_links_nonneg bs ues :
  Forall (fun l => 0 <= fst l) (map (baseline_link bs) ues).
Proof.
  apply Forall_forall. intros l Hl. apply list_elem_of_fmap in Hl as (ue & -> & _).
  apply dist_nonneg.
Qed.

Lemma uplinks_nonneg df bs ues :
  Forall (fun l => 0 <= fst l) (map (uplink df bs) ues).
Proof.
  apply Forall_forall. intros l Hl. apply list_elem_of_fmap in Hl as (ue & -> & _).
  apply dist_nonneg.
Qed.

Lemma relay_links_nonneg df bs pids :
  Forall (fun l => 0 <= fst l) (map (relay_link df bs) pids).
Proof.
  apply Forall_forall. intros l Hl. apply list_elem_of_fmap in Hl as (ue & -> & _).
  apply dist_nonneg.
Qed.

Lemma d2d_loop_resolves df bs pt fc bw (l : list Node) : forall s g s' g',
  for_each l (d2d_body df bs pt fc bw) s g = Ok (s', g') -> resolves df bs l.
Proof.
  induction l as [|ue l IH]; intros s g s' g' H; [constructor|].
  cbn [for_each] in H. apply bind_Ok_inv in H as (s1 & g1 & Hb & Hl).
  apply d2d_body_inv in Hb as (parent & Hp & _).
  constructor; [now exists parent | now apply IH in Hl].
Qed.

Lemma band_sums_resolves df bs band g s g' :
  band_sums df bs band g = Ok (s, g') -> resolves df bs (select_ues df).
Proof.
  unfold band_sums. cbv zeta. intros H.
  apply bind_Ok_inv in H as (s1 & g1 & _ & H).
  apply bind_Ok_inv in H as (s2 & g2 & H2 & _).
  now apply d2d_loop_resolves in H2.
Qed.

Lemma parent_of_resolved df bs ue parent :
  resolve_parent df bs ue = Ok parent -> parent_of df bs ue = parent.
Proof. intros H. unfold parent_of. now rewrite H. Qed.

(** ** The percentages and the rows *)

Lemma percentages_ok s :
  power_baseline s <> 0 -> rate_baseline s <> 0 ->
  percentages s =
  Ok ((1 - power_d2d s / power_baseline s) * 100,
      (rate_d2d s - rate_baseline s) / rate_baseline s * 100).
Proof.
  intros Hp Hr. unfold percentages.
  rewrite py_div_ok by exact Hp. cbn [rbind].
  rewrite py_div_ok by exact Hr. reflexivity.
Qed.

Lemma percentages_raise s :
  power_baseline s = 0 \/ rate_baseline s = 0 ->
  percentages s = Raise ZeroDivisionError.
Proof.
  intros H. unfold percentages.
  destruct (Req_dec_T (power_baseline s) 0) as [Hp|Hp].
  - now rewrite Hp, py_div_zero.
  - destruct H as [H|H]; [contradiction|].
    rewrite py_div_ok by exact Hp. cbn [rbind]. now rewrite H, py_div_zero.
Qed.

Lemma run_band_ok df bs tag band g s g' :
  band_sums df bs band g = Ok (s, g') ->
  power_baseline s <> 0 -> rate_baseline s <> 0 ->
  run_band df bs (tag, band) g = Ok (row_of tag band s, g').
Proof.
  intros H Hp Hr. unfold run_band. rewrite (bind_Ok _ _ _ _ _ H).
  unfold bind. now rewrite percentages_ok.
Qed.

Lemma run_band_raise df bs tag band g s g' :
  band_sums df bs band g = Ok (s, g') ->
  power_baseline s = 0 \/ rate_baseline s = 0 ->
  run_band df bs (tag, band) g = Raise ZeroDivisionError.
Proof.
  intros H Hz. unfold run_band. rewrite (bind_Ok _ _ _ _ _ H).
  unfold bind. now rewrite percentages_raise.
Qed.

Lemma run_band_inv df bs tag band g row g' :
  run_band df bs (tag, band) g = Ok (row, g') ->
  exists s, band_sums df bs band g = Ok (s, g') /\
            power_baseline s <> 0 /\ rate_baseline s <> 0 /\
            row = row_of tag band s.
Proof.
  intros H. destruct (band_sums df bs band g) as [[s g1]|e] eqn:Hs.
  - destruct (Req_dec_T (power_baseline s) 0) as [Hp|Hp];
      [rewrite (run_band_raise _ _ _ _ _ _ _ Hs) in H by (now left); discriminate|].
    destruct (Req_dec_T (rate_baseline s) 0) as [Hr|Hr];
      [rewrite (run_band_raise _ _ _ _ _ _ _ Hs) in H by (now right); discriminate|].
    rewrite (run_band_ok _ _ _ _ _ _ _ Hs Hp Hr) in H.
    injection H; intros <- <-. now exists s.
  - unfold run_band in H. rewrite (bind_Raise _ _ _ _ Hs) in H. discriminate.
Qed.

(** The loop over the bands appends one row per band, tagged as the band. *)
Lemma run_bands_tags df bs (bands : list (string * NRBand)) : forall acc g rows g',
  for_each bands (fun tb results =>
                    row <- run_band df bs tb ;; ret (results ++ [row])) acc g
  = Ok (rows, g') ->
  map Band rows = map Band acc ++ map fst bands.
Proof.
  induction bands as [|[tag band] bands IH]; intros acc g rows g' H;
    cbn [for_each] in H.
  - injection H; intros <- <-. cbn. now rewrite app_nil_r.
  - apply bind_Ok_inv in H as (acc1 & g1 & Hb & Hl).
    apply bind_Ok_inv in Hb as (row & g2 & Hrow & Hret).
    injection Hret; intros <- <-.
    apply run_band_inv in Hrow as (s & _ & _ & _ & ->).
    apply IH in Hl. rewrite Hl, map_app. cbn. now rewrite <- app_assoc.
Qed.

Lemma NR_BANDS_ok : Forall band_ok NR_BANDS.
Proof.
  unfold NR_BANDS, band_ok.
  repeat (apply Forall_cons_2; [split; cbn [fc bw snd]; lra|]).
  apply Forall_nil_2.
Qed.

Lemma run_band_total df bs tag band g :
  band_ok (tag, band) -> audible (bw band) g ->
  resolves df bs (select_ues df) ->
  power_sum (map (baseline_link bs) (select_ues df)) <> 0 ->
  exists s, band_sums df bs band g = Ok (s, shift (draws df bs) g) /\
            run_band df bs (tag, band) g
            = Ok (row_of tag band s, shift (draws df bs) g).
Proof.
  intros [Hf Hbw] Hg Hres Hpow. cbn [snd] in Hf, Hbw.
  destruct (band_sums_ok df bs band g) as [s Hs]; [lra|assumption..|].
  exists s. split; [exact Hs|].
  pose proof (band_sums_inv _ _ _ _ _ _ Hs) as (_ & _ & Hpb & Hrb & _).
  apply (run_band_ok _ _ _ _ _ _ _ Hs).
  - now rewrite Hpb.
  - rewrite Hrb. apply Rgt_not_eq, Rlt_gt, rate_sum_pos; [exact Hbw|].
    intros Hnil. rewrite Hnil in Hpow. now cbn in Hpow.
Qed.

Lemma run_bands_total df bs (bands : list (string * NRBand)) : forall acc g,
  Forall band_ok bands ->
  Forall (fun tb => audible (bw (snd tb)) g) bands ->
  resolves df bs (select_ues df) ->
  power_sum (map (baseline_link bs) (select_ues df)) <> 0 ->
  exists rows g',
    for_each bands (fun tb results =>
                      row <- run_band df bs tb ;; ret (results ++ [row])) acc g
    = Ok (rows, g').
Proof.
  induction bands as [|[tag band] bands IH]; intros acc g Hok Hg Hres Hpow;
    cbn [for_each].
  - now exists acc, g.
  - apply Forall_cons in Hok as [Hok1 Hok]. apply Forall_cons in Hg as [Hg1 Hg].
    cbn [snd] in Hg1.
    destruct (run_band_total df bs tag band g Hok1 Hg1 Hres Hpow) as (s & _ & Hrow).
    rewrite (bind_Ok _ _ _ _ _ (bind_Ok _ _ _ _ _ Hrow)).
    unfold ret at 1. apply IH; try assumption.
    eapply Forall_impl; [exact Hg|]. intros tb Htb. now apply audible_shift.
Qed.

(** The script prints a table when there is a base station, every parent
    reference resolves, some UE is away from the base station and no noise
    draw vanishes. *)
Lemma simulate_total df bs g :
  find_bs df = Ok bs ->
  resolves df bs (select_ues df) ->
  power_sum (map (baseline_link bs) (select_ues df)) <> 0 ->
  Forall (fun tb => audible (bw (snd tb)) g) NR_BANDS ->
  exists rows g', simulate df g = Ok (rows, g').
Proof.
  intros Hbs Hres Hpow Hg. unfold simulate. rewrite Hbs.
  unfold bind at 1. cbn [lift]. unfold run_bands.
  apply run_bands_total; [apply NR_BANDS_ok|assumption..].
Qed.

(** ** Example topologies *)

Lemma select_ues_only_bs : select_ues only_bs = [].
Proof. reflexivity. Qed.

Lemma select_ues_one_ue : select_ues one_ue = [ue1].
Proof. reflexivity. Qed.

Lemma select_ues_shared_relay : select_ues shared_relay = [ue1; ue2; ue3].
Proof. reflexivity. Qed.

Lemma find_bs_only_bs : find_bs only_bs = Ok bs0.
Proof. reflexivity. Qed.

Lemma find_bs_one_ue : find_bs one_ue = Ok bs0.
Proof. reflexivity. Qed.

Lemma resolves_one_ue : resolves one_ue bs0 (select_ues one_ue).
Proof.
  rewrite select_ues_one_ue. apply Forall_cons_2; [|apply Forall_nil_2].
  now exists bs0.
Qed.

Lemma resolves_shared_relay : resolves shared_relay bs0 (select_ues shared_relay).
Proof.
  rewrite select_ues_shared_relay.
  repeat apply Forall_cons_2; try apply Forall_nil_2.
  - now exists bs0.
  - now exists ue1.
  - now exists ue1.
Qed.

Lemma noise_of_quiet bw : 0 < bw -> noise_of bw 0 <> 0.
Proof. intros H. unfold noise_of, BOLTZ, TEMP_K. nra. Qed.

Lemma noise_of_loud bw : 0 < bw -> noise_of bw 1 <> 0.
Proof. intros H. unfold noise_of, BOLTZ, TEMP_K. nra. Qed.

Lemma audible_quiet : Forall (fun tb => audible (bw (snd tb)) quiet) NR_BANDS.
Proof.
  eapply Forall_impl; [apply NR_BANDS_ok|]. intros tb [_ Hbw] k.
  now apply noise_of_quiet.
Qed.

Lemma audible_loud : Forall (fun tb => audible (bw (snd tb)) loud) NR_BANDS.
Proof.
  eapply Forall_impl; [apply NR_BANDS_ok|]. intros tb [_ Hbw] k.
  now apply noise_of_loud.
Qed.

(** A point east of the base station on the equator is away from it. *)
Lemma haversine_a_east lon :
  0 < lon < 360 -> 0 < haversine_a 0 lon 0 0.
Proof.
  intros Hlon. unfold haversine_a, radians. pose proof PI_RGT_0 as Hpi.
  replace ((0 - 0) * (PI / 180) / 2) with 0 by lra.
  replace (0 * (PI / 180)) with 0 by lra.
  replace ((0 - lon) * (PI / 180) / 2) with (- (lon * (PI / 360))) by lra.
  rewrite sin_0, cos_0, sin_neg.
  assert (Hs : 0 < sin (lon * (PI / 360))) by (apply sin_gt_0; nra).
  nra.
Qed.

Lemma dist_ue1 : 0 < dist ue1 (Latitude bs0) (Longitude bs0).
Proof. apply dist_pos. cbn [ue1 bs0 Latitude Longitude]. apply haversine_a_east. lra. Qed.

Lemma power_one_ue : power_sum (map (baseline_link bs0) (select_ues one_ue)) <> 0.
Proof.
  rewrite select_ues_one_ue. cbn [map power_sum baseline_link].
  pose proof (link_power_pos _ dist_ue1). lra.
Qed.

Lemma power_shared_relay :
  power_sum (map (baseline_link bs0) (select_ues shared_relay)) <> 0.
Proof.
  rewrite select_ues_shared_relay. cbn [map power_sum baseline_link].
  pose proof (link_power_pos _ dist_ue1).
  pose proof (link_power_nonneg _ (dist_nonneg ue2 (Latitude bs0) (Longitude bs0))).
  pose proof (link_power_nonneg _ (dist_nonneg ue3 (Latitude bs0) (Longitude bs0))).
  lra.
Qed.

(** * The claims *)

(** ** Channel model *)

Lemma rayleigh_path_loss_Ok_inv fc d pl :
  rayleigh_path_loss fc d = Ok pl ->
  fc <> 0 /\ pl = d ^ PATH_EXP / (C_LIGHT / fc) ^ 2.
Proof.
  intros H. destruct (Req_dec_T fc 0) as [-> | Hf].
  - rewrite rayleigh_path_loss_zero in H. discriminate.
  - rewrite rayleigh_path_loss_ok in H by exact Hf.
    injection H; intros <-. auto.
Qed.

(** In exact arithmetic the path loss at the substituted distance is never
    zero: with a carrier frequency other than zero [snr_rayleigh] reduces to
    its last division, the one by the noise. *)
Lemma path_loss_nonzero_exact (pt d fc g_tx g_rx bw : R) (g : rng) :
  snr_rayleigh pt 0 fc g_tx g_rx bw g = snr_rayleigh pt 0.1 fc g_tx g_rx bw g /\
  (forall pl, rayleigh_path_loss fc (clamp_d d) = Ok pl ->
              pl = clamp_d d ^ 3 / (C_LIGHT / fc) ^ 2 /\ pl <> 0 /\
              py_div (pt * g_tx * g_rx) pl = Ok (pt * g_tx * g_rx / pl)) /\
  (fc <> 0 ->
   rayleigh_path_loss fc (clamp_d d) = Ok (path_loss_of fc d) /\
   snr_rayleigh pt d fc g_tx g_rx bw g =
   lift (py_div (pt * g_tx * g_rx / path_loss_of fc d)
                (Rabs (noise_of bw (g 0%nat)))) (next g)).
Proof.
  split; [|split].
  - unfold snr_rayleigh. cbv zeta.
    rewrite clamp_d_zero, (clamp_d_id 0.1) by lra. reflexivity.
  - intros pl H. apply rayleigh_path_loss_Ok_inv in H as [Hf ->].
    assert (Hpl : clamp_d d ^ PATH_EXP / (C_LIGHT / fc) ^ 2 <> 0)
      by now apply path_loss_of_nonzero.
    split; [reflexivity|]. split; [exact Hpl|]. now apply py_div_ok.
  - intros Hf. split.
    + now apply rayleigh_path_loss_ok.
    + now apply snr_rayleigh_noise.
Qed.

(** ** The path loss on floats *)





(** C7: the capacity [bw * log2 (1 + snr)] is strictly increasing in the SNR
    for a fixed positive bandwidth, on the SNRs for which [math.log2] is
    defined, and strictly increasing in the bandwidth for a fixed positive
    SNR. *)
Theorem capacity_monotone (bw1 bw2 s1 s2 : R) :
  (0 < bw1 -> -1 < s1 -> s1 < s2 ->
   exists c1 c2, capacity bw1 s1 = Ok c1 /\ capacity bw1 s2 = Ok c2 /\ c1 < c2) /\
  (0 < s1 -> bw1 < bw2 ->
   exists c1 c2, capacity bw1 s1 = Ok c1 /\ capacity bw2 s1 = Ok c2 /\ c1 < c2).
Proof.
  pose proof ln2_pos as Hln2. split.
  - intros Hbw Hs1 Hlt.
    exists (bw1 * (ln (1 + s1) / ln 2)), (bw1 * (ln (1 + s2) / ln 2)).
    rewrite !capacity_ok by lra. repeat split.
    apply Rmult_lt_compat_l; [exact Hbw|].
    apply Rmult_lt_compat_r; [now apply Rinv_0_lt_compat|].
    apply ln_increasing; lra.
  - intros Hs Hlt.
    exists (bw1 * (ln (1 + s1) / ln 2)), (bw2 * (ln (1 + s1) / ln 2)).
    rewrite !capacity_ok by lra. repeat split.
    apply Rmult_lt_compat_r; [|exact Hlt]. apply log2_pos. lra.
Qed.

Lemma capacity_monotone_witness :
  (exists c1 c2, capacity 200e6 1 = Ok c1 /\ capacity 200e6 3 = Ok c2 /\ c1 < c2) /\
  (exists c1 c2, capacity 200e6 1 = Ok c1 /\ capacity 1600e6 1 = Ok c2 /\ c1 < c2).
Proof.
  destruct (capacity_monotone 200e6 1600e6 1 3) as [Hs Hb].
  split; [apply Hs; lra | apply Hb; lra].
Defined.

(** ** Parent resolution *)

Lemma rx_gain_bs bs parent : ID parent = ID bs -> rx_gain bs parent = BS_RX_GAIN.
Proof. intros H. unfold rx_gain. now destruct (decide (ID parent = ID bs)). Qed.

Lemma add_parent_bs bs parent ps : ID parent = ID bs -> add_parent bs parent ps = ps.
Proof.
  intros H. unfold add_parent. now destruct (decide (ID parent <> ID bs)).
Qed.

(** The D2D body on a UE whose parent is the base station row adds to the
    D2D sums what the baseline body adds to the baseline sums. *)
Lemma d2d_body_direct df bs pt fc bw ue s g :
  resolve_parent df bs ue = Ok bs ->
  d2d_body df bs pt fc bw ue s g =
  match baseline_body bs pt fc bw ue s g with
  | Ok (sb, g') =>
      Ok (mkSums (power_baseline s)
                 (power_d2d s + (power_baseline sb - power_baseline s))
                 (rate_baseline s)
                 (rate_d2d s + (rate_baseline sb - rate_baseline s))
                 (parents s), g')
  | Raise e => Raise e
  end.
Proof.
  intros Hp.
  destruct (Req_dec_T fc 0) as [Hf|Hf];
    [|destruct (Req_dec_T (noise_of bw (g 0%nat)) 0) as [Hn|Hn]].
  - rewrite (d2d_body_tail _ _ _ _ _ _ _ _ _ Hp), baseline_body_tail.
    rewrite !link_tail_raise by (now left). reflexivity.
  - rewrite (d2d_body_tail _ _ _ _ _ _ _ _ _ Hp), baseline_body_tail.
    rewrite !link_tail_raise by (now right). reflexivity.
  - rewrite (d2d_body_ok _ _ _ _ _ _ _ _ _ Hp Hf Hn).
    rewrite (baseline_body_ok _ _ _ _ _ _ _ Hf Hn).
    unfold d2d_step, baseline_step. cbv zeta.
    cbn [power_baseline rate_baseline].
    rewrite rx_gain_bs, add_parent_bs by reflexivity.
    do 2 f_equal. f_equal; lra.
Qed.

(** C5: a UE without Parent ID resolves to the base station in the D2D
    pass; the receive gain is the base station's, no relay is recorded, and
    on the same generator state the D2D body draws the same sample and adds
    to the D2D sums exactly the rate and power-proxy the baseline body adds
    to the baseline sums (same distance, same gain). *)
Theorem direct_ue_same_link (df : DataFrame) (bs ue : Node) :
  Parent_ID ue = None ->
  resolve_parent df bs ue = Ok bs /\
  rx_gain bs bs = BS_RX_GAIN /\
  (forall ps, add_parent bs bs ps = ps) /\
  forall pt fc bw s g,
    d2d_body df bs pt fc bw ue s g =
    match baseline_body bs pt fc bw ue s g with
    | Ok (sb, g') =>
        Ok (mkSums (power_baseline s)
                   (power_d2d s + (power_baseline sb - power_baseline s))
                   (rate_baseline s)
                   (rate_d2d s + (rate_baseline sb - rate_baseline s))
                   (parents s), g')
    | Raise e => Raise e
    end.
Proof.
  intros Hnone.
  assert (Hp : resolve_parent df bs ue = Ok bs)
    by (unfold resolve_parent; now rewrite Hnone).
  split; [exact Hp|]. split; [now apply rx_gain_bs|].
  split; [intros ps; now apply add_parent_bs|].
  intros pt fc bw s g. now apply d2d_body_direct.
Qed.

Lemma direct_ue_same_link_witness :
  resolve_parent one_ue bs0 ue1 = Ok bs0 /\
  rx_gain bs0 bs0 = BS_RX_GAIN /\
  (forall ps, add_parent bs0 bs0 ps = ps) /\
  forall pt fc bw s g,
    d2d_body one_ue bs0 pt fc bw ue1 s g =
    match baseline_body bs0 pt fc bw ue1 s g with
    | Ok (sb, g') =>
        Ok (mkSums (power_baseline s)
                   (power_d2d s + (power_baseline sb - power_baseline s))
                   (rate_baseline s)
                   (rate_d2d s + (rate_baseline sb - rate_baseline s))
                   (parents s), g')
    | Raise e => Raise e
    end.
Proof. apply (direct_ue_same_link one_ue bs0 ue1). reflexivity. Defined.

Lemma relay_ids_not_bs df bs ues : ID bs ∉ relay_ids df bs ues.
Proof. rewrite elem_of_relay_ids. intros [H _]. now apply H. Qed.

Lemma d2d_body_direct_row df bs pt fc bw ue s g :
  resolve_parent df bs ue = Ok bs ->
  d2d_body df bs pt fc bw ue s g = d2d_body df bs pt fc bw (direct ue) s g.
Proof.
  intros Hp.
  rewrite (d2d_body_tail _ _ _ _ _ _ _ _ _ Hp).
  now rewrite (d2d_body_tail df bs pt fc bw (direct ue) s g bs eq_refl).
Qed.

(** C10: when a UE's Parent ID is the base station's own identifier, the
    row the D2D pass resolves carries that identifier; the D2D body then
    computes one link of the distance to that row, received with the base
    station's gain, adds its power proxy and rate to the D2D sums and
    leaves the set of relays as it is, and no band has the identifier among
    the relays it adds a hop for.  With unique identifiers the resolved row
    is the base station row, and the body adds to the D2D sums exactly what
    the baseline body adds to the baseline sums, as it does for the same UE
    without Parent ID. *)
Theorem bs_parent_is_direct (df : DataFrame) (bs ue : Node) :
  find_bs df = Ok bs -> Parent_ID ue = Some (ID bs) ->
  exists parent,
    resolve_parent df bs ue = Ok parent /\ ID parent = ID bs /\
    rx_gain bs parent = BS_RX_GAIN /\
    (forall ps, add_parent bs parent ps = ps) /\
    (forall pt fc bw s g,
        d2d_body df bs pt fc bw ue s g =
        (let d_up := dist ue (Latitude parent) (Longitude parent) in
         r <- snr_rayleigh pt d_up fc UE_TX_GAIN BS_RX_GAIN bw ;;
         c <~ capacity bw (Rmax r 0.01) ;;
         ret (mkSums (power_baseline s) (power_d2d s + (d_up / 1000) ^ PATH_EXP)
                     (rate_baseline s) (rate_d2d s + MIMO_STREAMS * c)
                     (parents s))) g) /\
    (forall band g s g',
        band_sums df bs band g = Ok (s, g') -> ID bs ∉ elements (parents s)) /\
    (NoDup (map ID df) ->
     parent = bs /\
     forall pt fc bw s g,
       d2d_body df bs pt fc bw ue s g =
       match baseline_body bs pt fc bw ue s g with
       | Ok (sb, g') =>
           Ok (mkSums (power_baseline s)
                      (power_d2d s + (power_baseline sb - power_baseline s))
                      (rate_baseline s)
                      (rate_d2d s + (rate_baseline sb - rate_baseline s))
                      (parents s), g')
       | Raise e => Raise e
       end /\
       d2d_body df bs pt fc bw ue s g = d2d_body df bs pt fc bw (direct ue) s g).
Proof.
  intros Hbs Hpid. apply find_bs_Ok_inv in Hbs as [_ Hin].
  destruct (find_id_elem df bs Hin) as [parent Hfind].
  assert (Hp : resolve_parent df bs ue = Ok parent)
    by (unfold resolve_parent; now rewrite Hpid).
  destruct (find_id_Ok_inv _ _ _ Hfind) as [Hid _].
  exists parent. split; [exact Hp|]. split; [exact Hid|].
  split; [now apply rx_gain_bs|].
  split; [intros ps; now apply add_parent_bs|]. split; [|split].
  - intros pt fc bw s g. rewrite (d2d_body_tail _ _ _ _ _ _ _ _ _ Hp).
    rewrite (rx_gain_bs _ _ Hid), (add_parent_bs _ _ _ Hid). reflexivity.
  - intros band g s g' Hs.
    apply band_sums_inv in Hs as (_ & -> & _).
    rewrite elem_of_elements. apply relay_ids_not_bs.
  - intros Hnd. rewrite (find_id_unique df bs Hnd Hin) in Hfind.
    injection Hfind; intros <-. split; [reflexivity|].
    intros pt fc bw s g. split.
    + now apply d2d_body_direct.
    + now apply d2d_body_direct_row.
Qed.

Lemma names_bs_unique : NoDup (map ID names_bs).
Proof.
  change (map ID names_bs) with [0%Z; 1%Z; 4%Z].
  apply (bool_decide_unpack _). now vm_compute.
Qed.

Lemma bs_parent_is_direct_witness :
  exists parent,
    resolve_parent names_bs bs0 ue4 = Ok parent /\ ID parent = ID bs0 /\
    rx_gain bs0 parent = BS_RX_GAIN /\
    (forall ps, add_parent bs0 parent ps = ps) /\
    (forall band g s g',
        band_sums names_bs bs0 band g = Ok (s, g') ->
        ID bs0 ∉ elements (parents s)) /\
    parent = bs0 /\
    forall pt fc bw s g,
      d2d_body names_bs bs0 pt fc bw ue4 s g =
      match baseline_body bs0 pt fc bw ue4 s g with
      | Ok (sb, g') =>
          Ok (mkSums (power_baseline s)
                     (power_d2d s + (power_baseline sb - power_baseline s))
                     (rate_baseline s)
                     (rate_d2d s + (rate_baseline sb - rate_baseline s))
                     (parents s), g')
      | Raise e => Raise e
      end /\
      d2d_body names_bs bs0 pt fc bw ue4 s g
      = d2d_body names_bs bs0 pt fc bw (direct ue4) s g.
Proof.
  destruct (bs_parent_is_direct names_bs bs0 ue4 eq_refl eq_refl)
    as (parent & Hp & Hid & Hg & Hadd & _ & Hhop & Hsame).
  exists parent. repeat (split; [assumption|]).
  exact (Hsame names_bs_unique).
Defined.

(** ** Relay deduplication *)

Lemma relay_hops_shared_relay : relay_hops shared_relay bs0 = [1%Z].
Proof.
  unfold relay_hops, relay_ids. rewrite select_ues_shared_relay.
  change (map (fun ue => ID (parent_of shared_relay bs0 ue)) [ue1; ue2; ue3])
    with [0%Z; 1%Z; 1%Z].
  now vm_compute.
Qed.

(** C1: when a band's loops end, the identifiers the relay loop runs over
    are pairwise distinct and are exactly the identifiers, other than the
    base station's, of the rows some UE resolves as its parent; the D2D
    sums are the UEs' uplinks plus one relay-to-base link per such
    identifier (one power-proxy term, and one capacity term drawing one
    noise sample), however many UEs name it. *)
Theorem relay_hop_once (df : DataFrame) (bs : Node) (band : NRBand) (g : rng)
    (s : Sums) (g' : rng) :
  band_sums df bs band g = Ok (s, g') ->
  let pt := dbm_to_w (eirp_dbm band) in
  let ues := select_ues df in
  let n := length ues in
  let hops := elements (parents s) in
  NoDup hops /\
  (forall pid, pid ∈ hops <->
     pid <> ID bs /\
     exists ue parent, ue ∈ ues /\ resolve_parent df bs ue = Ok parent /\
                       ID parent = pid) /\
  power_d2d s = power_sum (map (uplink df bs) ues)
                + power_sum (map (relay_link df bs) hops) /\
  rate_d2d s = rate_sum pt (fc band) (bw band) (map (uplink df bs) ues) (shift n g)
               + rate_sum pt (fc band) (bw band)
                   (map (relay_link df bs) hops) (shift (n + n) g) /\
  g' = shift (n + n + length hops) g.
Proof.
  intros Hs. cbv zeta.
  pose proof (band_sums_resolves _ _ _ _ _ _ Hs) as Hres.
  apply band_sums_inv in Hs as (Hg & Hps & _ & _ & Hpd & Hrd).
  rewrite Hps. fold (relay_hops df bs).
  split; [apply NoDup_elements|]. split; [|auto].
  intros pid. unfold relay_hops. rewrite elem_of_elements, elem_of_relay_ids.
  unfold resolves in Hres. rewrite Forall_forall in Hres.
  split; intros [Hne Hex]; (split; [exact Hne|]).
  - destruct Hex as (ue & Hue & ->). destruct (Hres ue Hue) as [parent Hp].
    exists ue, parent. rewrite (parent_of_resolved _ _ _ _ Hp). auto.
  - destruct Hex as (ue & parent & Hue & Hp & <-).
    exists ue. now rewrite (parent_of_resolved _ _ _ _ Hp).
Qed.

Lemma relay_hop_once_witness :
  exists s g',
    band_sums shared_relay bs0 (mkBand 3.7e9 200e6 30) quiet = Ok (s, g') /\
    elements (parents s) = [1%Z] /\
    power_d2d s = power_sum (map (uplink shared_relay bs0) [ue1; ue2; ue3])
                  + power_sum (map (relay_link shared_relay bs0) (elements (parents s))) /\
    g' = shift (3 + 3 + length (elements (parents s))) quiet.
Proof.
  destruct (band_sums_ok shared_relay bs0 (mkBand 3.7e9 200e6 30) quiet)
    as [s Hs].
  - cbn [fc]. lra.
  - intros k. apply noise_of_quiet. cbn [bw]. lra.
  - apply resolves_shared_relay.
  - exists s, (shift (draws shared_relay bs0) quiet). split; [exact Hs|].
    pose proof (relay_hop_once _ _ _ _ _ _ Hs) as (_ & _ & Hpd & _ & Hg).
    pose proof (band_sums_inv _ _ _ _ _ _ Hs) as (_ & Hps & _).
    split; [|split].
    + rewrite Hps. apply relay_hops_shared_relay.
    + exact Hpd.
    + exact Hg.
Defined.

(** ** The SNR floor and the signs of the sums *)

Lemma floored_link_intro pt d fc g_rx bw g :
  fc <> 0 -> noise_of bw (g 0%nat) <> 0 ->
  floored_link pt d fc g_rx bw g (link_rate pt d fc g_rx bw (g 0%nat)).
Proof.
  intros Hf Hn.
  exists (snr_of pt d fc UE_TX_GAIN g_rx bw (g 0%nat)),
         (link_cap pt d fc g_rx bw (g 0%nat)).
  split; [now apply snr_rayleigh_ok|]. split; [apply floor_ge|].
  split; [|split; [apply link_cap_pos | reflexivity]].
  apply capacity_ok.
  pose proof (floor_ge (snr_of pt d fc UE_TX_GAIN g_rx bw (g 0%nat))). lra.
Qed.

(** C4: in the baseline body, the D2D body and the relay body, the SNR
    passed to [capacity] is the returned SNR floored at 0.01, and with a
    positive bandwidth the capacity added is positive; when a band's loops
    end, both power-proxy sums are non-negative and, with a positive
    bandwidth, so are both rate sums. *)
Theorem snr_floor_sums_nonneg (df : DataFrame) (bs : Node) (band : NRBand) :
  let pt := dbm_to_w (eirp_dbm band) in
  (forall ue t g u g',
      baseline_body bs pt (fc band) (bw band) ue t g = Ok (u, g') ->
      floored_link pt (dist ue (Latitude bs) (Longitude bs)) (fc band)
                   BS_RX_GAIN (bw band) g (rate_baseline u - rate_baseline t)) /\
  (forall ue t g u g',
      d2d_body df bs pt (fc band) (bw band) ue t g = Ok (u, g') ->
      exists parent,
        resolve_parent df bs ue = Ok parent /\
        floored_link pt (dist ue (Latitude parent) (Longitude parent)) (fc band)
                     (rx_gain bs parent) (bw band) g (rate_d2d u - rate_d2d t)) /\
  (forall pid t g u g',
      relay_body df bs pt (fc band) (bw band) pid t g = Ok (u, g') ->
      exists parent,
        find_id df pid = Ok parent /\
        floored_link pt (dist parent (Latitude bs) (Longitude bs)) (fc band)
                     BS_RX_GAIN (bw band) g (rate_d2d u - rate_d2d t)) /\
  (forall g s g',
      band_sums df bs band g = Ok (s, g') ->
      0 <= power_baseline s /\ 0 <= power_d2d s /\
      (0 < bw band -> 0 <= rate_baseline s /\ 0 <= rate_d2d s)).
Proof.
  cbv zeta. set (pt := dbm_to_w (eirp_dbm band)).
  split; [|split; [|split]].
  - intros ue t g u g' H.
    apply baseline_body_inv in H as (Hf & Hn & -> & _).
    unfold baseline_step. cbv zeta. cbn [rate_baseline].
    match goal with |- floored_link _ ?d _ ?gr _ _ ?x =>
      replace x with (link_rate pt d (fc band) gr (bw band) (g 0%nat)) by lra end.
    now apply floored_link_intro.
  - intros ue t g u g' H.
    apply d2d_body_inv in H as (parent & Hp & Hf & Hn & -> & _).
    exists parent. split; [exact Hp|].
    unfold d2d_step. cbv zeta. cbn [rate_d2d].
    match goal with |- floored_link _ ?d _ ?gr _ _ ?x =>
      replace x with (link_rate pt d (fc band) gr (bw band) (g 0%nat)) by lra end.
    now apply floored_link_intro.
  - intros pid t g u g' H.
    apply relay_body_inv in H as (parent & Hp & Hf & Hn & -> & _).
    exists parent. split; [exact Hp|].
    unfold relay_step. cbv zeta. cbn [rate_d2d].
    match goal with |- floored_link _ ?d _ ?gr _ _ ?x =>
      replace x with (link_rate pt d (fc band) gr (bw band) (g 0%nat)) by lra end.
    now apply floored_link_intro.
  - intros g s g' H.
    apply band_sums_inv in H as (_ & _ & Hpb & Hrb & Hpd & Hrd).
    pose proof (power_sum_nonneg _ (baseline_links_nonneg bs (select_ues df))).
    pose proof (power_sum_nonneg _ (uplinks_nonneg df bs (select_ues df))).
    pose proof (power_sum_nonneg _ (relay_links_nonneg df bs (relay_hops df bs))).
    split; [lra|]. split; [lra|]. intros Hbw. rewrite Hrb, Hrd.
    pose proof (rate_sum_nonneg pt (fc band) (bw band)
                  (map (baseline_link bs) (select_ues df)) g Hbw).
    pose proof (rate_sum_nonneg pt (fc band) (bw band)
                  (map (uplink df bs) (select_ues df))
                  (shift (length (select_ues df)) g) Hbw).
    pose proof (rate_sum_nonneg pt (fc band) (bw band)
                  (map (relay_link df bs) (relay_hops df bs))
                  (shift (length (select_ues df) + length (select_ues df)) g) Hbw).
    fold pt. split; lra.
Qed.

Lemma snr_floor_sums_nonneg_witness :
  exists s g',
    band_sums shared_relay bs0 (mkBand 3.7e9 200e6 30) loud = Ok (s, g') /\
    0 <= power_baseline s /\ 0 <= power_d2d s /\
    0 <= rate_baseline s /\ 0 <= rate_d2d s.
Proof.
  destruct (band_sums_ok shared_relay bs0 (mkBand 3.7e9 200e6 30) loud)
    as [s Hs].
  - cbn [fc]. lra.
  - intros k. apply noise_of_loud. cbn [bw]. lra.
  - apply resolves_shared_relay.
  - exists s, (shift (draws shared_relay bs0) loud). split; [exact Hs|].
    destruct (snr_floor_sums_nonneg shared_relay bs0 (mkBand 3.7e9 200e6 30))
      as (_ & _ & _ & Hsums).
    destruct (Hsums _ _ _ Hs) as (Hpb & Hpd & Hrates).
    destruct Hrates as [Hrb Hrd]; [cbn [bw]; lra|]. auto.
Defined.

(** ** The power proxies and the noise *)

(** C9: the power-proxy sums of a band, and the set of relays, are the same
    for any two generator states on which the band's loops end, and so are
    the Baseline Power, D2D Power and Power Savings columns of the rows of
    two completed runs. *)
Theorem power_noise_independent (df : DataFrame) (bs : Node) (tag : string)
    (band : NRBand) (g1 g2 : rng) :
  (forall s1 s2 g1' g2',
      band_sums df bs band g1 = Ok (s1, g1') ->
      band_sums df bs band g2 = Ok (s2, g2') ->
      power_baseline s1 = power_baseline s2 /\
      power_d2d s1 = power_d2d s2 /\
      parents s1 = parents s2) /\
  (forall row1 row2 g1' g2',
      run_band df bs (tag, band) g1 = Ok (row1, g1') ->
      run_band df bs (tag, band) g2 = Ok (row2, g2') ->
      Baseline_Power row1 = Baseline_Power row2 /\
      D2D_Power row1 = D2D_Power row2 /\
      Power_Savings row1 = Power_Savings row2).
Proof.
  assert (Hsums : forall s1 s2 g1' g2',
             band_sums df bs band g1 = Ok (s1, g1') ->
             band_sums df bs band g2 = Ok (s2, g2') ->
             power_baseline s1 = power_baseline s2 /\
             power_d2d s1 = power_d2d s2 /\
             parents s1 = parents s2).
  { intros s1 s2 g1' g2' H1 H2.
    apply band_sums_inv in H1 as (_ & Hps1 & Hpb1 & _ & Hpd1 & _).
    apply band_sums_inv in H2 as (_ & Hps2 & Hpb2 & _ & Hpd2 & _).
    rewrite Hps1, Hps2, Hpb1, Hpb2, Hpd1, Hpd2. auto. }
  split; [exact Hsums|].
  intros row1 row2 g1' g2' H1 H2.
  apply run_band_inv in H1 as (s1 & Hs1 & _ & _ & ->).
  apply run_band_inv in H2 as (s2 & Hs2 & _ & _ & ->).
  destruct (Hsums _ _ _ _ Hs1 Hs2) as (Hpb & Hpd & _).
  unfold row_of. cbn [Baseline_Power D2D_Power Power_Savings].
  now rewrite Hpb, Hpd.
Qed.

Lemma power_noise_independent_witness :
  exists row1 row2 g1' g2',
    run_band shared_relay bs0 ("n77"%string, mkBand 3.7e9 200e6 30) quiet
    = Ok (row1, g1') /\
    run_band shared_relay bs0 ("n77"%string, mkBand 3.7e9 200e6 30) loud
    = Ok (row2, g2') /\
    Baseline_Power row1 = Baseline_Power row2 /\
    D2D_Power row1 = D2D_Power row2 /\
    Power_Savings row1 = Power_Savings row2.
Proof.
  set (band := mkBand 3.7e9 200e6 30).
  assert (Hok : band_ok ("n77"%string, band))
    by (split; cbn [snd fc bw band]; lra).
  destruct (run_band_total shared_relay bs0 "n77" band quiet Hok)
    as (s1 & _ & H1).
  { intros k. apply noise_of_quiet. cbn [bw band]. lra. }
  { apply resolves_shared_relay. }
  { apply power_shared_relay. }
  destruct (run_band_total shared_relay bs0 "n77" band loud Hok)
    as (s2 & _ & H2).
  { intros k. apply noise_of_loud. cbn [bw band]. lra. }
  { apply resolves_shared_relay. }
  { apply power_shared_relay. }
  eexists _, _, _, _. split; [exact H1|]. split; [exact H2|].
  destruct (power_noise_independent shared_relay bs0 "n77" band quiet loud)
    as [_ Hrows].
  exact (Hrows _ _ _ _ H1 H2).
Defined.

(** The rate sums do follow the samples: for a UE at the base station's
    position the louder generator gives the smaller baseline rate, at equal
    power proxies. *)
Lemma link_rate_noise pt d fc g_rx bw z1 z2 :
  0 < bw -> 0 < pt * UE_TX_GAIN * g_rx / path_loss_of fc d ->
  0 < noise_of bw z1 < noise_of bw z2 ->
  0.01 < snr_of pt d fc UE_TX_GAIN g_rx bw z1 ->
  link_rate pt d fc g_rx bw z2 < link_rate pt d fc g_rx bw z1.
Proof.
  intros Hbw HP [Hn1 Hn12] Hs1. unfold link_rate, link_cap, MIMO_STREAMS.
  unfold snr_of in *. set (P := pt * UE_TX_GAIN * g_rx / path_loss_of fc d) in *.
  rewrite !Rabs_pos_eq in * by lra.
  assert (Hlt : P / noise_of bw z2 < P / noise_of bw z1).
  { unfold Rdiv. apply Rmult_lt_compat_l; [exact HP|].
    apply Rinv_lt_contravar; [nra|exact Hn12]. }
  assert (Hmax : Rmax (P / noise_of bw z2) 0.01 < Rmax (P / noise_of bw z1) 0.01).
  { rewrite (Rmax_left (P / noise_of bw z1)) by lra.
    apply Rmax_lub_lt; lra. }
  pose proof (floor_ge (P / noise_of bw z2)) as Hfl.
  assert (Hln : ln (1 + Rmax (P / noise_of bw z2) 0.01)
                < ln (1 + Rmax (P / noise_of bw z1) 0.01))
    by (apply ln_increasing; lra).
  pose proof ln2_pos as Hln2. pose proof (Rinv_0_lt_compat _ Hln2) as Hi.
  unfold Rdiv. apply Rmult_lt_compat_l; [lra|].
  apply Rmult_lt_compat_l; [exact Hbw|]. now apply Rmult_lt_compat_r.
Qed.

Lemma path_loss_of_n77_clamped : 0 < path_loss_of 3.7e9 0 <= 1.
Proof.
  unfold path_loss_of. rewrite clamp_d_zero. unfold PATH_EXP, C_LIGHT, Rdiv.
  set (y := (299792458 * / 3.7e9) ^ 2).
  assert (Hy : 0.1 ^ 3 <= y) by (unfold y; lra).
  assert (Hy0 : 0 < y) by lra.
  pose proof (Rinv_0_lt_compat y Hy0) as Hi.
  pose proof (Rinv_l y (Rgt_not_eq _ _ Hy0)) as Hone.
  split; nra.
Qed.

Lemma BS_RX_GAIN_ge_1 : 1 <= BS_RX_GAIN.
Proof.
  unfold BS_RX_GAIN, BS_RX_GAIN_dBi, Rpower.
  rewrite <- exp_0 at 1. left. apply exp_increasing.
  assert (0 < ln 10) by (rewrite <- ln_1; apply ln_increasing; lra). nra.
Qed.

Lemma rates_follow_noise :
  exists s1 s2 g1 g2,
    band_sums at_bs bs0 (mkBand 3.7e9 200e6 30) quiet = Ok (s1, g1) /\
    band_sums at_bs bs0 (mkBand 3.7e9 200e6 30) loud = Ok (s2, g2) /\
    power_baseline s1 = power_baseline s2 /\
    rate_baseline s2 < rate_baseline s1.
Proof.
  set (band := mkBand 3.7e9 200e6 30).
  assert (Hres : resolves at_bs bs0 (select_ues at_bs)).
  { change (select_ues at_bs) with [ue0].
    apply Forall_cons_2; [now exists bs0 | apply Forall_nil_2]. }
  destruct (band_sums_ok at_bs bs0 band quiet) as [s1 H1];
    [cbn [fc band]; lra
    |intros k; apply noise_of_quiet; cbn [bw band]; lra |exact Hres|].
  destruct (band_sums_ok at_bs bs0 band loud) as [s2 H2];
    [cbn [fc band]; lra
    |intros k; apply noise_of_loud; cbn [bw band]; lra |exact Hres|].
  exists s1, s2, (shift (draws at_bs bs0) quiet), (shift (draws at_bs bs0) loud).
  split; [exact H1|]. split; [exact H2|].
  pose proof (band_sums_inv _ _ _ _ _ _ H1) as (_ & _ & Hpb1 & Hrb1 & _).
  pose proof (band_sums_inv _ _ _ _ _ _ H2) as (_ & _ & Hpb2 & Hrb2 & _).
  split; [now rewrite Hpb1, Hpb2|].
  rewrite Hrb1, Hrb2. change (select_ues at_bs) with [ue0].
  cbn [map rate_sum baseline_link eirp_dbm fc bw band].
  change (dist ue0 (Latitude bs0) (Longitude bs0))
    with (dist ue0 (Latitude ue0) (Longitude ue0)).
  rewrite dist_self, dbm_to_w_30.
  apply Rplus_lt_compat_r.
  pose proof path_loss_of_n77_clamped as [Hpl0 Hpl1].
  pose proof BS_RX_GAIN_ge_1 as HG.
  pose proof (Rinv_0_lt_compat _ Hpl0) as Hi.
  pose proof (Rinv_l _ (Rgt_not_eq _ _ Hpl0)) as Hone.
  assert (HP : 1 <= 1 * 1 * BS_RX_GAIN / path_loss_of 3.7e9 0)
    by (unfold Rdiv; nra).
  assert (Hq : 0 < noise_of 200e6 (quiet 0%nat) < 1)
    by (unfold noise_of, quiet, BOLTZ, TEMP_K; lra).
  apply link_rate_noise.
  - lra.
  - rewrite UE_TX_GAIN_one. lra.
  - unfold noise_of, quiet, loud, BOLTZ, TEMP_K. lra.
  - unfold snr_of. rewrite UE_TX_GAIN_one, Rabs_pos_eq by lra.
    destruct Hq as [Hq0 Hq1].
    pose proof (Rinv_0_lt_compat _ Hq0) as Hqi.
    pose proof (Rinv_l _ (Rgt_not_eq _ _ Hq0)) as Hqone.
    unfold Rdiv in *. nra.
Qed.

(** ** The percentages *)

(** C3: with a non-empty UE set, the percentages of every row a band
    reports are [(1 - power_d2d / power_baseline) * 100] and
    [(rate_d2d - rate_baseline) / rate_baseline * 100] of the sums its loops
    accumulated; with a positive bandwidth the row is reported as soon as
    the baseline power-proxy sum is not zero. *)
Theorem percentages_formula (df : DataFrame) (bs : Node) (tag : string)
    (band : NRBand) (g : rng) (s : Sums) (g' : rng) :
  select_ues df <> [] ->
  band_sums df bs band g = Ok (s, g') ->
  (forall row g'',
      run_band df bs (tag, band) g = Ok (row, g'') ->
      Power_Savings row = (1 - power_d2d s / power_baseline s) * 100 /\
      Sum_Rate_Gain row
      = (rate_d2d s - rate_baseline s) / rate_baseline s * 100) /\
  (0 < bw band -> power_baseline s <> 0 ->
   exists row, run_band df bs (tag, band) g = Ok (row, g')).
Proof.
  intros Hues Hs. split.
  - intros row g'' Hrow.
    apply run_band_inv in Hrow as (s' & Hs' & _ & _ & ->).
    rewrite Hs in Hs'. injection Hs'; intros _ <-. now cbn.
  - intros Hbw Hpb. exists (row_of tag band s).
    apply (run_band_ok _ _ _ _ _ _ _ Hs Hpb).
    pose proof (band_sums_inv _ _ _ _ _ _ Hs) as (_ & _ & _ & Hrb & _).
    rewrite Hrb. apply Rgt_not_eq, Rlt_gt, rate_sum_pos; [exact Hbw|].
    intros Hnil. apply map_eq_nil in Hnil. contradiction.
Qed.

Lemma percentages_formula_witness :
  exists s row g',
    band_sums one_ue bs0 (mkBand 3.7e9 200e6 30) quiet = Ok (s, g') /\
    run_band one_ue bs0 ("n77"%string, mkBand 3.7e9 200e6 30) quiet
    = Ok (row, g') /\
    Power_Savings row = (1 - power_d2d s / power_baseline s) * 100 /\
    Sum_Rate_Gain row = (rate_d2d s - rate_baseline s) / rate_baseline s * 100.
Proof.
  set (band := mkBand 3.7e9 200e6 30).
  assert (Hok : band_ok ("n77"%string, band))
    by (split; cbn [snd fc bw band]; lra).
  destruct (run_band_total one_ue bs0 "n77" band quiet Hok)
    as (s & Hs & Hrow).
  { intros k. apply noise_of_quiet. cbn [bw band]. lra. }
  { apply resolves_one_ue. }
  { apply power_one_ue. }
  exists s, (row_of "n77" band s), (shift (draws one_ue bs0) quiet).
  split; [exact Hs|]. split; [exact Hrow|].
  assert (Hues : select_ues one_ue <> []) by (rewrite select_ues_one_ue; discriminate).
  destruct (percentages_formula one_ue bs0 "n77" band quiet s _ Hues Hs)
    as [Hform _].
  exact (Hform _ _ Hrow).
Defined.

(** ** No UE rows *)

Lemma band_sums_no_ue df bs band g :
  select_ues df = [] -> band_sums df bs band g = Ok (sums0, g).
Proof.
  intros Hues. unfold band_sums. rewrite Hues. cbv zeta. cbn [for_each].
  unfold bind, ret. cbn [sums0 parents]. now rewrite elements_empty.
Qed.

Lemma percentages_sums0 : percentages sums0 = Raise ZeroDivisionError.
Proof. apply percentages_raise. now left. Qed.

Lemma run_band_no_ue df bs tb g :
  select_ues df = [] -> run_band df bs tb g = Raise ZeroDivisionError.
Proof.
  intros Hues. destruct tb as [tag band].
  apply (run_band_raise _ _ _ _ _ _ _ (band_sums_no_ue df bs band g Hues)).
  now left.
Qed.

Lemma simulate_no_ue df bs g :
  find_bs df = Ok bs -> select_ues df = [] ->
  simulate df g = Raise ZeroDivisionError.
Proof.
  intros Hbs Hues. unfold simulate. rewrite Hbs.
  unfold bind at 1. cbn [lift]. unfold run_bands, NR_BANDS. cbn [for_each].
  apply bind_Raise, bind_Raise. now apply run_band_no_ue.
Qed.

(** C2, as stated, fails: without UE rows the percentage derivation yields
    no value at all, undefined or infinite. *)
Lemma empty_ue_set_result_cex :
  ~ (exists s g' pr,
        band_sums only_bs bs0 (mkBand 3.7e9 200e6 30) quiet = Ok (s, g') /\
        percentages s = Ok pr).
Proof.
  intros (s & g' & pr & Hs & Hpr).
  rewrite (band_sums_no_ue only_bs bs0 _ quiet select_ues_only_bs) in Hs.
  injection Hs; intros _ <-. rewrite percentages_sums0 in Hpr. discriminate.
Qed.

(** C2, amended: without UE rows every band's loops end with all sums 0,
    the first percentage derivation divides by zero and raises
    [ZeroDivisionError], nothing catches it, and the script ends with that
    error before any row or table is produced. *)
Theorem empty_ue_set_raises (df : DataFrame) (bs : Node) (g : rng) :
  find_bs df = Ok bs -> select_ues df = [] ->
  (forall band, band_sums df bs band g = Ok (sums0, g)) /\
  power_baseline sums0 = 0 /\ rate_baseline sums0 = 0 /\
  py_div (power_d2d sums0) (power_baseline sums0) = Raise ZeroDivisionError /\
  percentages sums0 = Raise ZeroDivisionError /\
  (forall tb, run_band df bs tb g = Raise ZeroDivisionError) /\
  simulate df g = Raise ZeroDivisionError.
Proof.
  intros Hbs Hues.
  split; [intros band; now apply band_sums_no_ue|].
  split; [reflexivity|]. split; [reflexivity|].
  split; [apply py_div_zero|]. split; [apply percentages_sums0|].
  split; [intros tb; now apply run_band_no_ue|].
  now apply (simulate_no_ue df bs).
Qed.

Lemma empty_ue_set_raises_witness :
  (forall band, band_sums only_bs bs0 band quiet = Ok (sums0, quiet)) /\
  power_baseline sums0 = 0 /\ rate_baseline sums0 = 0 /\
  py_div (power_d2d sums0) (power_baseline sums0) = Raise ZeroDivisionError /\
  percentages sums0 = Raise ZeroDivisionError /\
  (forall tb, run_band only_bs bs0 tb quiet = Raise ZeroDivisionError) /\
  simulate only_bs quiet = Raise ZeroDivisionError.
Proof.
  apply (empty_ue_set_raises only_bs bs0 quiet); reflexivity.
Defined.

(** ** The result table *)

(** C8, as stated, fails: with no UE rows the script prints no table. *)
Lemma table_three_rows_cex :
  ~ (exists rows g',
        simulate only_bs quiet = Ok (rows, g') /\
        map Band rows = ["n77"; "n260"; "n261"]%string).
Proof.
  intros (rows & g' & H & _).
  rewrite (simulate_no_ue only_bs bs0 quiet find_bs_only_bs select_ues_only_bs)
    in H.
  discriminate.
Qed.

(** C8, amended: whenever the script runs to its end, the table has exactly
    three rows, tagged n77, n260 and n261 in this order, whatever the
    topology. *)
Theorem table_three_rows (df : DataFrame) (g : rng) (rows : list Row) (g' : rng) :
  simulate df g = Ok (rows, g') ->
  map Band rows = ["n77"; "n260"; "n261"]%string /\ length rows = 3%nat.
Proof.
  intros H. unfold simulate in H.
  apply bind_Ok_inv in H as (bs & g1 & _ & H).
  apply run_bands_tags in H. cbn [map app] in H.
  split; [exact H|].
  rewrite <- (length_map Band), H. reflexivity.
Qed.

Lemma table_three_rows_witness :
  exists rows g',
    simulate one_ue quiet = Ok (rows, g') /\
    map Band rows = ["n77"; "n260"; "n261"]%string /\ length rows = 3%nat.
Proof.
  destruct (simulate_total one_ue bs0 quiet find_bs_one_ue resolves_one_ue
              power_one_ue audible_quiet) as (rows & g' & H).
  exists rows, g'. split; [exact H|].
  exact (table_three_rows one_ue quiet rows g' H).
Defined.

(** * Further properties of the script *)

(** ** Geometry *)

Lemma haversine_a_sym lat lon lat' lon' :
  haversine_a lat lon lat' lon' = haversine_a lat' lon' lat lon.
Proof.
  unfold haversine_a, radians.
  replace ((lat - lat') * (PI / 180) / 2)
    with (- ((lat' - lat) * (PI / 180) / 2)) by lra.
  replace ((lon - lon') * (PI / 180) / 2)
    with (- ((lon' - lon) * (PI / 180) / 2)) by lra.
  rewrite !sin_neg. ring.
Qed.

(** The angle of a point of the unit circle in the first quadrant. *)
Lemma atan2_sin_cos x : 0 <= x <= PI / 2 -> atan2 (sin x) (cos x) = x.
Proof.
  intros [H0 H1]. unfold atan2. pose proof PI_RGT_0 as Hpi.
  destruct (Req_dec_T x (PI / 2)) as [-> | Hne].
  - rewrite cos_PI2, sin_PI2.
    destruct (Rlt_dec 0 0); [lra|]. destruct (Rlt_dec 0 0); [lra|].
    destruct (Rlt_dec 0 1); [reflexivity|lra].
  - assert (Hc : 0 < cos x) by (apply cos_gt_0; lra).
    destruct (Rlt_dec 0 (cos x)); [|lra].
    change (sin x / cos x) with (tan x). apply atan_tan. lra.
Qed.

(** X2: the distance is symmetric: from [p] to the position of [q] and from
    [q] to the position of [p], [haversine_m] returns the same. *)
Theorem haversine_m_symmetric (p q : Node) :
  haversine_m p (Latitude q) (Longitude q)
  = haversine_m q (Latitude p) (Longitude p).
Proof.
  unfold haversine_m. cbv zeta.
  now rewrite (haversine_a_sym (Latitude p) (Longitude p)).
Qed.

(** X3: along a meridian the distance is the arc length: for a point at the
    same longitude and [delta] degrees further north, [0 <= delta <= 180],
    [haversine_m] returns [EARTH_R * radians delta]; a point is at distance
    0 from itself. *)
Theorem haversine_m_meridian (row : Node) (delta : R) :
  0 <= delta <= 180 ->
  haversine_m row (Latitude row + delta) (Longitude row)
  = Ok (EARTH_R * radians delta).
Proof.
  intros [H0 H1]. rewrite haversine_m_total. f_equal.
  unfold dist, haversine_a, radians. cbv zeta. pose proof PI_RGT_0 as Hpi.
  set (x := delta * (PI / 180) / 2).
  replace ((Latitude row + delta - Latitude row) * (PI / 180) / 2) with x
    by (unfold x; lra).
  replace ((Longitude row - Longitude row) * (PI / 180) / 2) with 0 by lra.
  rewrite sin_0.
  assert (Hx : 0 <= x <= PI / 2) by (unfold x; split; nra).
  assert (Hs : 0 <= sin x) by (apply sin_ge_0; lra).
  assert (Hc : 0 <= cos x) by (apply cos_ge_0; lra).
  pose proof (sin2_cos2 x) as Hsc. unfold Rsqr in Hsc.
  replace (sin x ^ 2 + cos (Latitude row * (PI / 180))
                       * cos ((Latitude row + delta) * (PI / 180)) * 0 ^ 2)
    with (sin x ^ 2) by ring.
  replace (1 - sin x ^ 2) with (cos x ^ 2) by lra.
  rewrite !sqrt_pow2 by assumption.
  rewrite atan2_sin_cos by exact Hx. unfold x. lra.
Qed.

Lemma haversine_m_meridian_witness :
  haversine_m ue1 (Latitude ue1 + 0) (Longitude ue1) = Ok (EARTH_R * radians 0)
  /\ haversine_m ue1 (Latitude ue1 + 90) (Longitude ue1)
     = Ok (EARTH_R * radians 90).
Proof.
  split; apply (haversine_m_meridian ue1); lra.
Defined.

(** ** Unit conversion *)

Lemma dbm_to_w_decade x : dbm_to_w (x + 10) = 10 * dbm_to_w x.
Proof.
  unfold dbm_to_w.
  replace ((x + 10 - 30) / 10) with (1 + (x - 30) / 10) by lra.
  rewrite Rpower_plus, Rpower_1 by lra. reflexivity.
Qed.

(** X5: [dbm_to_w] is positive and strictly increasing, 30 dBm is 1 W, ten
    more dBm are ten times the power, and so 0 dBm is 0.001 W. *)
Theorem dbm_to_w_scale (x y : R) :
  0 < dbm_to_w x /\
  (x < y -> dbm_to_w x < dbm_to_w y) /\
  dbm_to_w (x + 10) = 10 * dbm_to_w x /\
  dbm_to_w 30 = 1 /\ dbm_to_w 0 = 0.001.
Proof.
  split; [apply Rpower_pos|]. split.
  - intros Hxy. unfold dbm_to_w. apply Rpower_lt; lra.
  - split; [apply dbm_to_w_decade|]. split; [apply dbm_to_w_30|].
    pose proof dbm_to_w_30 as H30.
    replace 30 with (20 + 10) in H30 by lra. rewrite dbm_to_w_decade in H30.
    replace 20 with (10 + 10) in H30 by lra. rewrite dbm_to_w_decade in H30.
    replace 10 with (0 + 10) in H30 at 3 by lra.
    rewrite dbm_to_w_decade in H30. lra.
Qed.

Lemma dbm_to_w_scale_witness : dbm_to_w 20 < dbm_to_w 30.
Proof. apply (dbm_to_w_scale 20 30). lra. Defined.

(** ** Channel model *)

(** X6: [rayleigh_path_loss] raises [ZeroDivisionError] for a carrier
    frequency 0 and for nothing else; otherwise the loss is
    [d ^ 3 * fc ^ 2 / C_LIGHT ^ 2], not negative for a distance that is not
    negative, and twice the distance gives eight times the loss. *)
Theorem rayleigh_path_loss_cubic (fc d : R) :
  (fc = 0 -> rayleigh_path_loss fc d = Raise ZeroDivisionError) /\
  (fc <> 0 ->
   exists pl, rayleigh_path_loss fc d = Ok pl /\
              pl = d ^ 3 * fc ^ 2 / C_LIGHT ^ 2 /\
              (0 <= d -> 0 <= pl) /\
              rayleigh_path_loss fc (2 * d) = Ok (8 * pl)).
Proof.
  split.
  - intros ->. apply rayleigh_path_loss_zero.
  - intros Hf. exists (d ^ PATH_EXP / (C_LIGHT / fc) ^ 2).
    split; [now apply rayleigh_path_loss_ok|].
    assert (Hc : C_LIGHT <> 0) by (unfold C_LIGHT; lra).
    assert (Hcf : (C_LIGHT / fc) ^ 2 <> 0) by now apply wavelength_sq_nonzero.
    split; [|split].
    + unfold PATH_EXP. field. split; assumption.
    + intros Hd. unfold Rdiv. apply Rmult_le_pos; [now apply pow_le|].
      left. apply Rinv_0_lt_compat.
      assert (0 <= (C_LIGHT / fc) ^ 2) by (apply pow2_ge_0). lra.
    + rewrite rayleigh_path_loss_ok by exact Hf. f_equal.
      unfold PATH_EXP. field. split; assumption.
Qed.

Lemma rayleigh_path_loss_cubic_witness :
  rayleigh_path_loss 0 1000 = Raise ZeroDivisionError /\
  exists pl, rayleigh_path_loss 3.7e9 1000 = Ok pl /\
             pl = 1000 ^ 3 * 3.7e9 ^ 2 / C_LIGHT ^ 2 /\
             (0 <= 1000 -> 0 <= pl) /\
             rayleigh_path_loss 3.7e9 (2 * 1000) = Ok (8 * pl).
Proof.
  split.
  - apply (rayleigh_path_loss_cubic 0 1000). reflexivity.
  - apply (rayleigh_path_loss_cubic 3.7e9 1000). lra.
Defined.

Lemma snr_rayleigh_Ok_inv pt d fc g_tx g_rx bw g r g' :
  snr_rayleigh pt d fc g_tx g_rx bw g = Ok (r, g') ->
  fc <> 0 /\ noise_of bw (g 0%nat) <> 0 /\
  r = snr_of pt d fc g_tx g_rx bw (g 0%nat) /\ g' = next g.
Proof.
  intros H.
  destruct (Req_dec_T fc 0) as [Hf|Hf];
    [rewrite snr_rayleigh_raise in H by (now left); discriminate|].
  destruct (Req_dec_T (noise_of bw (g 0%nat)) 0) as [Hn|Hn];
    [rewrite snr_rayleigh_raise in H by (now right); discriminate|].
  rewrite snr_rayleigh_ok in H by assumption.
  injection H; intros <- <-. auto.
Qed.

Lemma path_loss_of_pos fc d : fc <> 0 -> 0 <= d -> 0 < path_loss_of fc d.
Proof.
  intros Hf Hd. unfold path_loss_of.
  assert (Hcl : 0 < clamp_d d).
  { unfold clamp_d. destruct (Req_dec_T d 0); lra. }
  apply Rdiv_lt_0_compat; [now apply pow_lt|].
  pose proof (wavelength_sq_nonzero fc Hf).
  pose proof (pow2_ge_0 (C_LIGHT / fc)). lra.
Qed.

(** X7: when [snr_rayleigh] returns, it has drawn exactly one sample; for
    transmit power, gains and distance that are not negative the SNR is not
    negative; it is proportional to the receive gain; and for a distance
    other than 0, twice the distance gives, on the same sample, an eighth
    of the SNR. *)
Theorem snr_rayleigh_scaling (pt d fc g_tx g_rx bw : R) (g : rng) (r : R)
    (g' : rng) :
  snr_rayleigh pt d fc g_tx g_rx bw g = Ok (r, g') ->
  g' = next g /\
  (0 <= pt -> 0 <= g_tx -> 0 <= g_rx -> 0 <= d -> 0 <= r) /\
  (forall k, snr_rayleigh pt d fc g_tx (k * g_rx) bw g = Ok (k * r, g')) /\
  (d <> 0 -> snr_rayleigh pt (2 * d) fc g_tx g_rx bw g = Ok (r / 8, g')).
Proof.
  intros H. apply snr_rayleigh_Ok_inv in H as (Hf & Hn & -> & ->).
  split; [reflexivity|].
  pose proof (path_loss_of_nonzero fc d Hf) as Hpl.
  pose proof (Rabs_no_R0 _ Hn) as Habs.
  split; [|split].
  - intros Hpt Htx Hrx Hd. unfold snr_of.
    pose proof (path_loss_of_pos fc d Hf Hd) as Hpos.
    pose proof (Rabs_pos_lt _ Hn) as Hapos.
    apply Rmult_le_pos; [|left; now apply Rinv_0_lt_compat].
    apply Rmult_le_pos; [|left; now apply Rinv_0_lt_compat].
    apply Rmult_le_pos; [apply Rmult_le_pos|]; assumption.
  - intros k. rewrite snr_rayleigh_ok by assumption. do 2 f_equal.
    unfold snr_of. field. split; assumption.
  - intros Hd. rewrite snr_rayleigh_ok by assumption. do 2 f_equal.
    unfold snr_of. pose proof (path_loss_of_nonzero fc (2 * d) Hf) as Hpl2.
    assert (Hrel : path_loss_of fc (2 * d) = 8 * path_loss_of fc d).
    { unfold path_loss_of. rewrite (clamp_d_id d), (clamp_d_id (2 * d)) by lra.
      unfold PATH_EXP. field. split; [exact Hf | unfold C_LIGHT; lra]. }
    rewrite Hrel. field. split; assumption.
Qed.

Lemma snr_rayleigh_scaling_witness :
  exists r g',
    snr_rayleigh 1 1000 3.7e9 1 1 200e6 quiet = Ok (r, g') /\
    g' = next quiet /\ 0 <= r /\
    snr_rayleigh 1 (2 * 1000) 3.7e9 1 1 200e6 quiet = Ok (r / 8, g').
Proof.
  assert (H : snr_rayleigh 1 1000 3.7e9 1 1 200e6 quiet
              = Ok (snr_of 1 1000 3.7e9 1 1 200e6 (quiet 0%nat), next quiet)).
  { apply snr_rayleigh_ok; [lra|]. apply noise_of_quiet. lra. }
  eexists _, _. split; [exact H|].
  destruct (snr_rayleigh_scaling _ _ _ _ _ _ _ _ _ H) as (Hg & Hpos & _ & H2).
  split; [exact Hg|]. split; [apply Hpos; lra | apply H2; lra].
Defined.

(** X8: [capacity] raises [ValueError] exactly for an SNR of -1 or less; at
    SNR 0 the capacity is 0 and at SNR 1 it is the bandwidth. *)
Theorem capacity_domain (bw snr_lin : R) :
  (snr_lin <= -1 -> capacity bw snr_lin = Raise ValueError) /\
  (-1 < snr_lin -> exists c, capacity bw snr_lin = Ok c) /\
  capacity bw 0 = Ok 0 /\ capacity bw 1 = Ok bw.
Proof.
  pose proof ln2_pos as Hln2. split; [|split; [|split]].
  - intros H. unfold capacity, py_log2.
    destruct (Rle_dec (1 + snr_lin) 0); [reflexivity|lra].
  - intros H. eexists. now apply capacity_ok.
  - rewrite capacity_ok by lra. f_equal.
    replace (1 + 0) with 1 by lra. rewrite ln_1. lra.
  - rewrite capacity_ok by lra. f_equal.
    replace (1 + 1) with 2 by lra. field. lra.
Qed.

Lemma capacity_domain_witness :
  capacity 200e6 (-1) = Raise ValueError /\
  exists c, capacity 200e6 (-0.5) = Ok c.
Proof.
  destruct (capacity_domain 200e6 (-1)) as (Hr & _).
  destruct (capacity_domain 200e6 (-0.5)) as (_ & Hok & _).
  split; [apply Hr; lra | apply Hok; lra].
Defined.

(** ** Row selection *)

Lemma iloc0_filter_first {A} (P : A -> Prop) `{!forall x, Decision (P x)}
    (l : list A) (x : A) :
  iloc0 (filter P l) = Ok x <->
  exists pre post, l = pre ++ x :: post /\ P x /\ Forall (fun y => ~ P y) pre.
Proof.
  split.
  - induction l as [|y l IH]; [discriminate|].
    rewrite filter_cons. destruct (decide (P y)) as [Hy|Hy].
    + cbn [iloc0]. intros [= ->]. exists [], l. repeat split; [exact Hy|].
      apply Forall_nil_2.
    + intros Hf. destruct (IH Hf) as (pre & post & -> & Hx & Hpre).
      exists (y :: pre), post. repeat split; [exact Hx|].
      now apply Forall_cons_2.
  - intros (pre & post & -> & Hx & Hpre).
    induction pre as [|y pre IH]; cbn [app]; rewrite filter_cons.
    + now destruct (decide (P x)).
    + apply Forall_cons in Hpre as [Hy Hpre].
      destruct (decide (P y)); [contradiction|]. now apply IH.
Qed.

Lemma iloc0_filter_none {A} (P : A -> Prop) `{!forall x, Decision (P x)}
    (l : list A) (e : exn) :
  iloc0 (filter P l) = Raise e <-> e = IndexError /\ Forall (fun y => ~ P y) l.
Proof.
  split.
  - induction l as [|y l IH].
    + cbn. intros [= <-]. split; [reflexivity | apply Forall_nil_2].
    + rewrite filter_cons. destruct (decide (P y)) as [Hy|Hy]; [discriminate|].
      intros Hf. destruct (IH Hf) as [-> Hl]. split; [reflexivity|].
      now apply Forall_cons_2.
  - intros [-> Hl]. induction l as [|y l IH]; [reflexivity|].
    apply Forall_cons in Hl as [Hy Hl]. rewrite filter_cons.
    destruct (decide (P y)); [contradiction | now apply IH].
Qed.

(** X9: the look-ups return the first matching row of the table: [find_bs]
    the first row named BaseStation, [find_id] the first row with the
    identifier; rows after it, matching or not, play no part; and each
    raises [IndexError], nothing else, exactly when no row matches. *)
Theorem lookup_first_match (df : DataFrame) (pid : Z) :
  (forall bs, find_bs df = Ok bs <->
              exists pre post, df = pre ++ bs :: post /\ is_bs bs /\
                               Forall (fun n => ~ is_bs n) pre) /\
  (forall e, find_bs df = Raise e <->
             e = IndexError /\ Forall (fun n => ~ is_bs n) df) /\
  (forall p, find_id df pid = Ok p <->
             exists pre post, df = pre ++ p :: post /\ ID p = pid /\
                              Forall (fun n => ID n <> pid) pre) /\
  (forall e, find_id df pid = Raise e <->
             e = IndexError /\ Forall (fun n => ID n <> pid) df).
Proof.
  split; [|split; [|split]].
  - intros bs. apply (iloc0_filter_first is_bs).
  - intros e. apply (iloc0_filter_none is_bs).
  - intros p. apply (iloc0_filter_first (fun n => ID n = pid)).
  - intros e. apply (iloc0_filter_none (fun n => ID n = pid)).
Qed.

(** X10: the base station row is never among the UEs, every other row is a
    UE unless it is named BaseStation too, the UEs keep the order of the
    table, and there are fewer UEs than rows. *)
Theorem select_ues_rows (df : DataFrame) (bs : Node) :
  find_bs df = Ok bs ->
  bs ∈ df /\ (bs ∉ select_ues df) /\
  (forall n, n ∈ select_ues df <-> n ∈ df /\ Name n <> "BaseStation"%string) /\
  sublist (select_ues df) df /\
  (length (select_ues df) < length df)%nat.
Proof.
  intros Hbs. apply find_bs_Ok_inv in Hbs as [Hname Hin].
  assert (Hmem : forall n, n ∈ select_ues df
                           <-> n ∈ df /\ Name n <> "BaseStation"%string).
  { intros n. unfold select_ues. rewrite list_elem_of_filter. unfold is_bs.
    tauto. }
  split; [exact Hin|]. split; [|split; [exact Hmem|split]].
  - rewrite Hmem. intros [_ H]. now apply H.
  - apply sublist_filter.
  - unfold select_ues. clear Hmem.
    induction df as [|n df IH]; [inversion Hin|].
    rewrite filter_cons. apply elem_of_cons in Hin as [<- | Hin].
    + destruct (decide (~ is_bs bs)); [contradiction|].
      pose proof (length_filter (fun n => ~ is_bs n) df). cbn [length]. lia.
    + specialize (IH Hin). destruct (decide (~ is_bs n)); cbn [length]; lia.
Qed.

Lemma select_ues_rows_witness :
  bs0 ∈ shared_relay /\ (bs0 ∉ select_ues shared_relay) /\
  (forall n, n ∈ select_ues shared_relay
             <-> n ∈ shared_relay /\ Name n <> "BaseStation"%string) /\
  sublist (select_ues shared_relay) shared_relay /\
  (length (select_ues shared_relay) < length shared_relay)%nat.
Proof. apply (select_ues_rows shared_relay bs0). reflexivity. Defined.

(** ** What the script raises *)

Lemma for_each_Raise_inv {A S} (body : A -> S -> M S) (l : list A) :
  forall s g e,
    for_each l body s g = Raise e ->
    exists x s1 g1, x ∈ l /\ body x s1 g1 = Raise e.
Proof.
  induction l as [|x l IH]; intros s g e H; cbn [for_each] in H;
    [discriminate|].
  unfold bind in H. destruct (body x s g) as [[s' g']|e'] eqn:Hb.
  - destruct (IH _ _ _ H) as (y & s1 & g1 & Hy & Hr).
    exists y, s1, g1. split; [now right | exact Hr].
  - injection H; intros <-. exists x, s, g. split; [left | exact Hb].
Qed.

Lemma link_tail_Raise_inv {X} pt d fc g_rx bw (F : R -> X) g e :
  link_tail pt d fc g_rx bw F g = Raise e -> e = ZeroDivisionError.
Proof.
  intros H.
  destruct (Req_dec_T fc 0) as [Hf|Hf];
    [rewrite link_tail_raise in H by (now left); congruence|].
  destruct (Req_dec_T (noise_of bw (g 0%nat)) 0) as [Hn|Hn];
    [rewrite link_tail_raise in H by (now right); congruence|].
  rewrite link_tail_ok in H by assumption. discriminate.
Qed.

Lemma dangling_unresolved df bs ue :
  dangling df ue <-> exists e, resolve_parent df bs ue = Raise e.
Proof.
  unfold dangling, resolve_parent. split.
  - intros (pid & -> & Hall). exists IndexError.
    now apply (iloc0_filter_none (fun n => ID n = pid)).
  - intros [e H]. destruct (Parent_ID ue) as [pid|]; [|discriminate].
    exists pid. split; [reflexivity|].
    now apply (iloc0_filter_none (fun n => ID n = pid)) in H as [_ H].
Qed.

Lemma resolve_parent_Raise_inv df bs ue e :
  resolve_parent df bs ue = Raise e -> e = IndexError /\ dangling df ue.
Proof.
  intros H. split.
  - unfold resolve_parent in H. destruct (Parent_ID ue) as [pid|];
      [|discriminate].
    now apply (iloc0_filter_none (fun n => ID n = pid)) in H as [-> _].
  - apply (dangling_unresolved df bs). now exists e.
Qed.

Lemma d2d_body_Raise_inv df bs pt fc bw ue s g e :
  d2d_body df bs pt fc bw ue s g = Raise e ->
  e = ZeroDivisionError \/ (e = IndexError /\ dangling df ue).
Proof.
  intros H. destruct (resolve_parent df bs ue) as [parent|e'] eqn:Hp.
  - rewrite (d2d_body_tail _ _ _ _ _ _ _ _ _ Hp) in H.
    left. now apply link_tail_Raise_inv in H.
  - rewrite (d2d_body_unresolved _ _ _ _ _ _ _ _ _ Hp) in H.
    injection H; intros <-. right. now apply (resolve_parent_Raise_inv df bs).
Qed.

Lemma band_sums_Raise_inv df bs band g e :
  band_sums df bs band g = Raise e ->
  e = ZeroDivisionError \/
  (e = IndexError /\ exists ue, ue ∈ select_ues df /\ dangling df ue).
Proof.
  unfold band_sums. cbv zeta. set (pt := dbm_to_w (eirp_dbm band)).
  intros H. unfold bind at 1 in H.
  destruct (for_each (select_ues df) (baseline_body bs pt (fc band) (bw band))
              sums0 g) as [[s1 g1]|e1] eqn:H1.
  - unfold bind at 1 in H.
    destruct (for_each (select_ues df) (d2d_body df bs pt (fc band) (bw band))
                s1 g1) as [[s2 g2]|e2] eqn:H2.
    + apply for_each_Raise_inv in H as (pid & s3 & g3 & Hpid & Hr).
      destruct (find_id df pid) as [parent|e'] eqn:Hp.
      * rewrite (relay_body_tail _ _ _ _ _ _ _ _ _ Hp) in Hr.
        left. now apply link_tail_Raise_inv in Hr.
      * exfalso.
        pose proof (d2d_loop_resolves _ _ _ _ _ _ _ _ _ _ H2) as Hres.
        pose proof (d2d_loop_inv _ _ _ _ _ _ _ _ _ _ H2) as (_ & _ & _ & _ & _ & Hps).
        pose proof (baseline_loop_inv _ _ _ _ _ _ _ _ _ H1) as (_ & _ & _ & _ & _ & Hps1).
        rewrite Hps, Hps1 in Hpid. cbn [sums0 parents] in Hpid.
        rewrite union_empty_l_L in Hpid.
        pose proof (relay_ids_resolve _ _ _ Hres) as Hok.
        rewrite Forall_forall in Hok. destruct (Hok pid Hpid) as [p Hfound].
        congruence.
    + injection H; intros <-.
      apply for_each_Raise_inv in H2 as (ue & s3 & g3 & Hue & Hr).
      apply d2d_body_Raise_inv in Hr as [Hr | [Hr Hd]]; [now left|].
      right. split; [exact Hr|]. now exists ue.
  - injection H; intros <-.
    apply for_each_Raise_inv in H1 as (ue & s3 & g3 & Hue & Hr).
    rewrite baseline_body_tail in Hr. left. now apply link_tail_Raise_inv in Hr.
Qed.

Lemma run_band_Raise_inv df bs tb g e :
  run_band df bs tb g = Raise e ->
  e = ZeroDivisionError \/
  (e = IndexError /\ exists ue, ue ∈ select_ues df /\ dangling df ue).
Proof.
  destruct tb as [tag band]. unfold run_band. intros H. unfold bind at 1 in H.
  destruct (band_sums df bs band g) as [[s g1]|e1] eqn:Hs.
  - left. unfold bind, lift in H.
    destruct (percentages s) as [pr|e2] eqn:Hpr; [discriminate|].
    injection H; intros <-.
    destruct (Req_dec_T (power_baseline s) 0) as [Hp|Hp];
      [rewrite percentages_raise in Hpr by (now left); congruence|].
    destruct (Req_dec_T (rate_baseline s) 0) as [Hr|Hr];
      [rewrite percentages_raise in Hpr by (now right); congruence|].
    rewrite percentages_ok in Hpr by assumption. discriminate.
  - injection H; intros <-. now apply band_sums_Raise_inv in Hs.
Qed.

Lemma d2d_loop_dangling df bs pt fc bw (l : list Node) : forall s g,
  fc <> 0 -> audible bw g -> Exists (dangling df) l ->
  for_each l (d2d_body df bs pt fc bw) s g = Raise IndexError.
Proof.
  induction l as [|ue l IH]; intros s g Hf Hg Hex; [inversion Hex|].
  cbn [for_each]. destruct (resolve_parent df bs ue) as [parent|e] eqn:Hp.
  - rewrite (bind_Ok _ _ _ _ _
               (d2d_body_ok df bs pt fc bw ue s g parent Hp Hf (Hg 0%nat))).
    apply IH; [exact Hf | now apply audible_next |].
    apply Exists_cons in Hex as [Hd | Hex]; [|exact Hex].
    apply (dangling_unresolved df bs) in Hd as [e He]. congruence.
  - apply bind_Raise. rewrite (d2d_body_unresolved _ _ _ _ _ _ _ _ _ Hp).
    now apply resolve_parent_Raise_inv in Hp as [-> _].
Qed.

Lemma simulate_dangling df bs g :
  find_bs df = Ok bs -> audible 200e6 g ->
  Exists (dangling df) (select_ues df) ->
  simulate df g = Raise IndexError.
Proof.
  intros Hbs Hg Hex. unfold simulate. rewrite Hbs.
  unfold bind at 1. cbn [lift]. unfold run_bands, NR_BANDS. cbn [for_each].
  apply bind_Raise, bind_Raise. unfold run_band. apply bind_Raise.
  unfold band_sums. cbv zeta. cbn [fc bw eirp_dbm].
  destruct (baseline_loop_ok bs (dbm_to_w 30) 3.7e9 200e6 ltac:(lra)
              (select_ues df) sums0 g Hg) as [s1 H1].
  rewrite (bind_Ok _ _ _ _ _ H1). apply bind_Raise.
  apply d2d_loop_dangling; [lra | now apply audible_shift | exact Hex].
Qed.

(** X11: the script raises [IndexError] only when no row is named
    BaseStation or some UE's Parent ID matches no row: the look-up of the
    loop over the relays cannot fail, because every identifier the D2D loop
    has put into [parents] is the identifier of a row of the table. *)
Theorem index_error_causes (df : DataFrame) (g : rng) :
  (simulate df g = Raise IndexError ->
   Forall (fun n => ~ is_bs n) df \/
   exists ue, ue ∈ select_ues df /\ dangling df ue) /\
  (forall bs pt fc bw s g1 s' g',
      for_each (select_ues df) (d2d_body df bs pt fc bw) s g1 = Ok (s', g') ->
      parents s = ∅ ->
      forall pid, pid ∈ parents s' ->
                  exists parent, find_id df pid = Ok parent /\ ID parent = pid).
Proof.
  split.
  - unfold simulate. intros H. unfold bind at 1, lift in H.
    destruct (find_bs df) as [bs|e'] eqn:Hbs.
    + right. unfold run_bands in H.
      apply for_each_Raise_inv in H as (tb & acc & g1 & _ & Hr).
      unfold bind at 1 in Hr.
      destruct (run_band df bs tb g1) as [[row g2]|e2] eqn:Hrow;
        [discriminate|].
      injection Hr; intros ->.
      apply run_band_Raise_inv in Hrow as [Hz | [_ Hd]];
        [discriminate | exact Hd].
    + left. now apply (iloc0_filter_none is_bs) in Hbs as [_ Hall].
  - intros bs pt fc bw s g1 s' g' Hloop Hempty pid Hpid.
    pose proof (d2d_loop_resolves _ _ _ _ _ _ _ _ _ _ Hloop) as Hres.
    apply d2d_loop_inv in Hloop as (_ & _ & _ & _ & _ & Hps).
    rewrite Hps, Hempty, union_empty_l_L in Hpid.
    pose proof (relay_ids_resolve _ _ _ Hres) as Hok.
    rewrite Forall_forall in Hok.
    destruct (Hok pid) as [parent Hfound]; [now apply elem_of_elements|].
    exists parent. split; [exact Hfound|].
    now apply find_id_Ok_inv in Hfound as [Hid _].
Qed.

Lemma index_error_causes_witness :
  Forall (fun n => ~ is_bs n) orphan \/
  exists ue, ue ∈ select_ues orphan /\ dangling orphan ue.
Proof.
  apply (index_error_causes orphan quiet).
  apply (simulate_dangling orphan bs0 quiet).
  - reflexivity.
  - intros k. apply noise_of_quiet. lra.
  - change (select_ues orphan) with [ue1; ue5].
    apply Exists_cons. right. apply Exists_cons. left.
    exists 99%Z. split; [reflexivity|].
    repeat (apply Forall_cons_2; [discriminate|]). apply Forall_nil_2.
Defined.



Lemma power_sum_zero bs ues :
  Forall (fun ue => dist ue (Latitude bs) (Longitude bs) = 0) ues ->
  power_sum (map (baseline_link bs) ues) = 0.
Proof.
  induction 1 as [|ue ues Hue _ IH]; [reflexivity|].
  cbn [map power_sum baseline_link]. rewrite Hue, IH.
  unfold link_power, PATH_EXP. lra.
Qed.

(** X13: when every UE is at distance 0 from the base station, a table with
    resolving parent references makes the script raise [ZeroDivisionError]
    on the first band, however many UEs there are: the baseline power-proxy
    sum is 0. *)
Theorem colocated_raises (df : DataFrame) (bs : Node) (g : rng) :
  find_bs df = Ok bs -> audible 200e6 g ->
  resolves df bs (select_ues df) ->
  Forall (fun ue => dist ue (Latitude bs) (Longitude bs) = 0) (select_ues df) ->
  simulate df g = Raise ZeroDivisionError.
Proof.
  intros Hbs Hg Hres Hzero. unfold simulate. rewrite Hbs.
  unfold bind at 1. cbn [lift]. unfold run_bands, NR_BANDS. cbn [for_each].
  apply bind_Raise, bind_Raise.
  destruct (band_sums_ok df bs (mkBand 3.7e9 200e6 30) g) as [s Hs];
    [cbn [fc]; lra | exact Hg | exact Hres |].
  apply (run_band_raise _ _ _ _ _ _ _ Hs). left.
  apply band_sums_inv in Hs as (_ & _ & -> & _). now apply power_sum_zero.
Qed.

Lemma colocated_raises_witness : simulate at_bs quiet = Raise ZeroDivisionError.
Proof.
  apply (colocated_raises at_bs bs0 quiet).
  - reflexivity.
  - intros k. apply noise_of_quiet. lra.
  - change (select_ues at_bs) with [ue0].
    apply Forall_cons_2; [now exists bs0 | apply Forall_nil_2].
  - change (select_ues at_bs) with [ue0].
    apply Forall_cons_2; [|apply Forall_nil_2].
    exact (dist_self ue0).
Defined.

(** ** Samples drawn *)

Lemma lift_Ok_inv {A} (r : result A) g a g' :
  lift r g = Ok (a, g') -> r = Ok a /\ g' = g.
Proof. unfold lift. destruct r; [|discriminate]. now intros [= -> ->]. Qed.

Lemma run_bands_draws df bs (bands : list (string * NRBand)) :
  forall acc g rows g',
    for_each bands (fun tb results =>
                      row <- run_band df bs tb ;; ret (results ++ [row])) acc g
    = Ok (rows, g') ->
    g' = shift (length bands * draws df bs) g.
Proof.
  induction bands as [|[tag band] bands IH]; intros acc g rows g' H;
    cbn [for_each] in H.
  - now injection H; intros <- <-.
  - apply bind_Ok_inv in H as (acc1 & g1 & Hb & Hl).
    apply bind_Ok_inv in Hb as (row & g2 & Hrow & Hret).
    injection Hret; intros <- <-.
    apply run_band_inv in Hrow as (s & Hs & _).
    apply band_sums_inv in Hs as (-> & _).
    apply IH in Hl. rewrite Hl. cbn [length Nat.mul]. now rewrite shift_add.
Qed.

(** X14: a run that ends has drawn one sample per link and band, neither
    more nor less: with [n] UEs and [r] distinct relays, [3 * (2 * n + r)]
    samples, so the generator it leaves starts at that sample. *)
Theorem simulate_draws (df : DataFrame) (g : rng) (rows : list Row) (g' : rng) :
  simulate df g = Ok (rows, g') ->
  exists bs,
    find_bs df = Ok bs /\
    let n := length (select_ues df) in
    let r := size (relay_ids df bs (select_ues df)) in
    g' = shift (3 * (2 * n + r)) g /\
    forall k, g' k = g (3 * (2 * n + r) + k)%nat.
Proof.
  unfold simulate. intros H. apply bind_Ok_inv in H as (bs & g1 & Hbs & H).
  apply lift_Ok_inv in Hbs as [Hbs ->]. exists bs. split; [exact Hbs|].
  apply run_bands_draws in H. cbv zeta.
  assert (Hn : (length NR_BANDS * draws df bs
                = 3 * (2 * length (select_ues df)
                       + size (relay_ids df bs (select_ues df))))%nat).
  { unfold draws, relay_hops, size, set_size. cbn [length NR_BANDS].
    cbn [compose]. lia. }
  rewrite Hn in H. split; [exact H|]. intros k. rewrite H. apply shift_at.
Qed.

Lemma simulate_draws_witness :
  exists rows g' bs,
    simulate shared_relay quiet = Ok (rows, g') /\
    find_bs shared_relay = Ok bs /\
    g' = shift (3 * (2 * length (select_ues shared_relay)
                     + size (relay_ids shared_relay bs
                               (select_ues shared_relay)))) quiet.
Proof.
  destruct (simulate_total shared_relay bs0 quiet eq_refl resolves_shared_relay
              power_shared_relay audible_quiet) as (rows & g' & H).
  destruct (simulate_draws shared_relay quiet rows g' H) as (bs & Hbs & Hg & _).
  exists rows, g', bs. auto.
Defined.

(** ** Topologies without relays *)

Lemma all_direct_links df bs (ues : list Node) :
  Forall (fun ue => Parent_ID ue = None) ues ->
  map (uplink df bs) ues = map (baseline_link bs) ues /\
  relay_ids df bs ues = ∅.
Proof.
  induction 1 as [|ue ues Hue _ [IHl IHr]]; [split; reflexivity|].
  assert (Hp : parent_of df bs ue = bs).
  { unfold parent_of, resolve_parent. now rewrite Hue. }
  split.
  - cbn [map]. rewrite IHl. f_equal.
    unfold uplink, baseline_link. cbv zeta. rewrite Hp.
    now rewrite rx_gain_bs.
  - unfold relay_ids in *. cbn [map]. rewrite Hp, filter_cons.
    destruct (decide (ID bs <> ID bs)); [congruence | exact IHr].
Qed.

(** X15: when no UE has a Parent ID, a band's loops leave no relay, the D2D
    power-proxy sum equals the baseline one, the D2D rate sum is the
    baseline formula on the next [n] samples, and every row reported shows
    0 power savings. *)
Theorem all_direct_no_saving (df : DataFrame) (bs : Node) (tag : string)
    (band : NRBand) (g : rng) (s : Sums) (g' : rng) :
  Forall (fun ue => Parent_ID ue = None) (select_ues df) ->
  band_sums df bs band g = Ok (s, g') ->
  let n := length (select_ues df) in
  parents s = ∅ /\
  power_d2d s = power_baseline s /\
  rate_d2d s = rate_sum (dbm_to_w (eirp_dbm band)) (fc band) (bw band)
                 (map (baseline_link bs) (select_ues df)) (shift n g) /\
  g' = shift (n + n) g /\
  forall row g'', run_band df bs (tag, band) g = Ok (row, g'') ->
                  Power_Savings row = 0.
Proof.
  intros Hdir Hs. cbv zeta.
  destruct (all_direct_links df bs _ Hdir) as [Hup Hrel].
  pose proof (band_sums_inv _ _ _ _ _ _ Hs) as (Hg & Hps & Hpb & _ & Hpd & Hrd).
  cbv zeta in Hrd.
  assert (Hhops : relay_hops df bs = []).
  { unfold relay_hops. rewrite Hrel. apply elements_empty. }
  rewrite Hhops, Hup in Hpd, Hrd. cbn [map power_sum rate_sum] in Hpd, Hrd.
  assert (Hsame : power_d2d s = power_baseline s) by lra.
  split; [now rewrite Hps|]. split; [exact Hsame|]. split; [lra|].
  split.
  - rewrite Hg. unfold draws. rewrite Hhops. cbn [length].
    now rewrite Nat.add_0_r.
  - intros row g'' Hrow.
    apply run_band_inv in Hrow as (s' & Hs' & Hpb' & _ & ->).
    rewrite Hs in Hs'. injection Hs'; intros _ <-.
    unfold row_of. cbn [Power_Savings]. rewrite Hsame. field. exact Hpb'.
Qed.

Lemma all_direct_no_saving_witness :
  exists s row g',
    band_sums one_ue bs0 (mkBand 3.7e9 200e6 30) quiet = Ok (s, g') /\
    run_band one_ue bs0 ("n77"%string, mkBand 3.7e9 200e6 30) quiet
    = Ok (row, g') /\
    parents s = ∅ /\ power_d2d s = power_baseline s /\ Power_Savings row = 0.
Proof.
  set (band := mkBand 3.7e9 200e6 30).
  assert (Hok : band_ok ("n77"%string, band))
    by (split; cbn [snd fc bw band]; lra).
  destruct (run_band_total one_ue bs0 "n77" band quiet Hok)
    as (s & Hs & Hrow).
  { intros k. apply noise_of_quiet. cbn [bw band]. lra. }
  { apply resolves_one_ue. }
  { apply power_one_ue. }
  assert (Hdir : Forall (fun ue => Parent_ID ue = None) (select_ues one_ue)).
  { rewrite select_ues_one_ue.
    apply Forall_cons_2; [reflexivity | apply Forall_nil_2]. }
  destruct (all_direct_no_saving one_ue bs0 "n77" band quiet s _ Hdir Hs)
    as (Hps & Hsame & _ & _ & Hzero).
  exists s, (row_of "n77" band s), (shift (draws one_ue bs0) quiet).
  split; [exact Hs|]. split; [exact Hrow|]. split; [exact Hps|].
  split; [exact Hsame|]. exact (Hzero _ _ Hrow).
Defined.

(** ** Bounds on what is reported *)

Lemma link_rate_floor pt d fc g_rx bw z :
  0 < bw -> floor_rate bw <= link_rate pt d fc g_rx bw z.
Proof.
  intros Hbw. unfold floor_rate, link_rate, link_cap, MIMO_STREAMS.
  pose proof (floor_ge (snr_of pt d fc UE_TX_GAIN g_rx bw z)) as Hfl.
  pose proof ln2_pos as Hln2. pose proof (Rinv_0_lt_compat _ Hln2) as Hi.
  assert (Hln : ln (1 + 0.01)
                <= ln (1 + Rmax (snr_of pt d fc UE_TX_GAIN g_rx bw z) 0.01)).
  { destruct Hfl as [Hlt | Heq].
    - left. apply ln_increasing; lra.
    - right. now rewrite <- Heq. }
  unfold Rdiv. apply Rmult_le_compat_l; [lra|].
  apply Rmult_le_compat_l; [lra|]. apply Rmult_le_compat_r; lra.
Qed.

Lemma rate_sum_floor pt fc bw ls : forall g,
  0 < bw -> INR (length ls) * floor_rate bw <= rate_sum pt fc bw ls g.
Proof.
  induction ls as [|[d gr] ls IH]; intros g Hbw.
  - cbn. lra.
  - cbn [rate_sum]. change (length ((d, gr) :: ls)) with (S (length ls)).
    rewrite S_INR.
    pose proof (link_rate_floor pt d fc gr bw (g 0%nat) Hbw).
    pose proof (IH (next g) Hbw). lra.
Qed.

(** X16: the SNR floor bounds the rates from below: with a positive
    bandwidth every link adds at least the capacity at SNR 0.01 over the
    four streams, a positive amount, so the baseline rate sum is at least
    [n] such amounts and the D2D rate sum at least [n + r], for [n] UEs and
    [r] distinct relays, however far the UEs and however loud the noise. *)
Theorem rate_floor (df : DataFrame) (bs : Node) (band : NRBand) (g : rng)
    (s : Sums) (g' : rng) :
  0 < bw band ->
  band_sums df bs band g = Ok (s, g') ->
  let n := length (select_ues df) in
  let r := size (relay_ids df bs (select_ues df)) in
  0 < floor_rate (bw band) /\
  INR n * floor_rate (bw band) <= rate_baseline s /\
  INR (n + r) * floor_rate (bw band) <= rate_d2d s.
Proof.
  intros Hbw Hs. cbv zeta.
  apply band_sums_inv in Hs as (_ & _ & _ & Hrb & _ & Hrd).
  cbv zeta in Hrb, Hrd. split; [|split].
  - unfold floor_rate, MIMO_STREAMS.
    pose proof (log2_pos (1 + 0.01) ltac:(lra)). nra.
  - rewrite Hrb.
    pose proof (rate_sum_floor (dbm_to_w (eirp_dbm band)) (fc band) (bw band)
                  (map (baseline_link bs) (select_ues df)) g Hbw) as H.
    now rewrite length_map in H.
  - rewrite Hrd, plus_INR.
    pose proof (rate_sum_floor (dbm_to_w (eirp_dbm band)) (fc band) (bw band)
                  (map (uplink df bs) (select_ues df))
                  (shift (length (select_ues df)) g) Hbw) as H1.
    pose proof (rate_sum_floor (dbm_to_w (eirp_dbm band)) (fc band) (bw band)
                  (map (relay_link df bs) (relay_hops df bs))
                  (shift (length (select_ues df) + length (select_ues df)) g)
                  Hbw) as H2.
    rewrite length_map in H1, H2.
    change (size (relay_ids df bs (select_ues df)))
      with (length (relay_hops df bs)).
    lra.
Qed.

Lemma rate_floor_witness :
  exists s g',
    band_sums shared_relay bs0 (mkBand 3.7e9 200e6 30) loud = Ok (s, g') /\
    0 < floor_rate 200e6 /\
    INR 3 * floor_rate 200e6 <= rate_baseline s /\
    INR (3 + 1) * floor_rate 200e6 <= rate_d2d s.
Proof.
  set (band := mkBand 3.7e9 200e6 30).
  destruct (band_sums_ok shared_relay bs0 band loud) as [s Hs].
  - cbn [fc band]. lra.
  - intros k. apply noise_of_loud. cbn [bw band]. lra.
  - apply resolves_shared_relay.
  - exists s, (shift (draws shared_relay bs0) loud). split; [exact Hs|].
    assert (Hbw : 0 < bw band) by (cbn [bw band]; lra).
    pose proof (rate_floor shared_relay bs0 band loud s _ Hbw Hs) as H.
    cbv zeta in H.
    change (size (relay_ids shared_relay bs0 (select_ues shared_relay)))
      with (length (relay_hops shared_relay bs0)) in H.
    rewrite relay_hops_shared_relay, select_ues_shared_relay in H.
    exact H.
Defined.



(** ** Relays *)

Lemma snr_of_pos pt d fc g_rx bw z :
  0 < pt -> 0 < g_rx -> 0 <= d -> fc <> 0 -> noise_of bw z <> 0 ->
  0 < snr_of pt d fc UE_TX_GAIN g_rx bw z.
Proof.
  intros Hpt Hrx Hd Hf Hn. unfold snr_of. rewrite UE_TX_GAIN_one.
  pose proof (path_loss_of_pos fc d Hf Hd) as Hpl.
  pose proof (Rabs_pos_lt _ Hn) as Ha.
  apply Rdiv_lt_0_compat; [|exact Ha].
  apply Rdiv_lt_0_compat; [|exact Hpl]. nra.
Qed.

Lemma PARENT_RX_GAIN_lt : 0 < PARENT_RX_GAIN < BS_RX_GAIN.
Proof.
  split; [apply Rpower_pos|].
  unfold PARENT_RX_GAIN, BS_RX_GAIN, PARENT_RX_GAIN_dBi, BS_RX_GAIN_dBi.
  apply Rpower_lt; lra.
Qed.

(** X19: a parent that is not the base station receives with
    [PARENT_RX_GAIN], which is below [BS_RX_GAIN]; so for a positive
    transmit power, at equal distance and on the same sample, the SNR of a
    link to a relay is lower than the SNR of a link to the base station. *)
Theorem relay_gain_lower (bs parent : Node) (pt d fc bw : R) (g : rng)
    (r : R) (g' : rng) :
  ID parent <> ID bs -> 0 < pt -> 0 <= d ->
  snr_rayleigh pt d fc UE_TX_GAIN (rx_gain bs bs) bw g = Ok (r, g') ->
  rx_gain bs parent = PARENT_RX_GAIN /\
  rx_gain bs parent < rx_gain bs bs /\
  exists r', snr_rayleigh pt d fc UE_TX_GAIN (rx_gain bs parent) bw g
             = Ok (r', g') /\ r' < r.
Proof.
  intros Hid Hpt Hd H.
  assert (Hgp : rx_gain bs parent = PARENT_RX_GAIN).
  { unfold rx_gain. now destruct (decide (ID parent = ID bs)). }
  rewrite Hgp, rx_gain_bs in * by reflexivity.
  pose proof PARENT_RX_GAIN_lt as [Hp0 Hplt].
  split; [reflexivity|]. split; [exact Hplt|].
  apply snr_rayleigh_Ok_inv in H as (Hf & Hn & -> & ->).
  exists (snr_of pt d fc UE_TX_GAIN PARENT_RX_GAIN bw (g 0%nat)).
  split; [now apply snr_rayleigh_ok|].
  unfold snr_of. rewrite UE_TX_GAIN_one.
  pose proof (path_loss_of_pos fc d Hf Hd) as Hpl.
  pose proof (Rabs_pos_lt _ Hn) as Ha.
  apply Rmult_lt_compat_r; [now apply Rinv_0_lt_compat|].
  apply Rmult_lt_compat_r; [now apply Rinv_0_lt_compat|]. nra.
Qed.

Lemma relay_gain_lower_witness :
  exists r r' g',
    snr_rayleigh 1 1000 3.7e9 UE_TX_GAIN (rx_gain bs0 bs0) 200e6 quiet
    = Ok (r, g') /\
    snr_rayleigh 1 1000 3.7e9 UE_TX_GAIN (rx_gain bs0 ue1) 200e6 quiet
    = Ok (r', g') /\
    rx_gain bs0 ue1 < rx_gain bs0 bs0 /\ r' < r.
Proof.
  assert (H : snr_rayleigh 1 1000 3.7e9 UE_TX_GAIN (rx_gain bs0 bs0) 200e6 quiet
              = Ok (snr_of 1 1000 3.7e9 UE_TX_GAIN (rx_gain bs0 bs0) 200e6
                      (quiet 0%nat), next quiet)).
  { apply snr_rayleigh_ok; [lra|]. apply noise_of_quiet. lra. }
  destruct (relay_gain_lower bs0 ue1 1 1000 3.7e9 200e6 quiet _ _
              ltac:(discriminate) ltac:(lra) ltac:(lra) H)
    as (_ & Hlt & r' & Hr' & Hless).
  eexists _, r', _. split; [exact H|]. auto.
Defined.

Lemma link_cap_clamped pt fc g_rx bw z :
  link_cap pt 0 fc g_rx bw z = link_cap pt 0.1 fc g_rx bw z.
Proof.
  unfold link_cap, snr_of, path_loss_of.
  now rewrite clamp_d_zero, (clamp_d_id 0.1) by lra.
Qed.

(** X20: parent references are not checked for cycles: with unique
    identifiers, a UE that names itself as parent is accepted; its uplink
    has length 0, so it adds nothing to the D2D power proxy, its rate is the
    one of a 0.1 m link received with [PARENT_RX_GAIN], and its identifier
    joins the relays, whose loop then adds its hop to the base station. *)
Theorem self_parent (df : DataFrame) (bs ue : Node) (pt fc bw : R)
    (s : Sums) (g : rng) :
  NoDup (map ID df) -> ue ∈ df -> Parent_ID ue = Some (ID ue) ->
  ID ue <> ID bs -> fc <> 0 -> noise_of bw (g 0%nat) <> 0 ->
  resolve_parent df bs ue = Ok ue /\
  exists s',
    d2d_body df bs pt fc bw ue s g = Ok (s', next g) /\
    power_d2d s' = power_d2d s /\
    rate_d2d s' = rate_d2d s + link_rate pt 0.1 fc PARENT_RX_GAIN bw (g 0%nat) /\
    parents s' = parents s ∪ {[ ID ue ]}.
Proof.
  intros Hnd Hin Hpid Hid Hf Hn.
  assert (Hp : resolve_parent df bs ue = Ok ue).
  { unfold resolve_parent. rewrite Hpid. now apply find_id_unique. }
  split; [exact Hp|].
  exists (d2d_step bs pt fc bw ue ue (g 0%nat) s).
  split; [now apply d2d_body_ok|].
  unfold d2d_step. cbv zeta.
  cbn [power_d2d rate_d2d parents]. rewrite dist_self.
  assert (Hg : rx_gain bs ue = PARENT_RX_GAIN).
  { unfold rx_gain. now destruct (decide (ID ue = ID bs)). }
  rewrite Hg. split; [|split].
  - unfold link_power, PATH_EXP. lra.
  - unfold link_rate. now rewrite link_cap_clamped.
  - unfold add_parent. now destruct (decide (ID ue <> ID bs)).
Qed.

Lemma self_parent_witness :
  resolve_parent own_parent bs0 ue6 = Ok ue6 /\
  exists s',
    d2d_body own_parent bs0 1 3.7e9 200e6 ue6 sums0 quiet = Ok (s', next quiet) /\
    power_d2d s' = power_d2d sums0 /\
    rate_d2d s' = rate_d2d sums0
                  + link_rate 1 0.1 3.7e9 PARENT_RX_GAIN 200e6 (quiet 0%nat) /\
    parents s' = parents sums0 ∪ {[ ID ue6 ]}.
Proof.
  apply (self_parent own_parent bs0 ue6 1 3.7e9 200e6 sums0 quiet).
  - change (map ID own_parent) with [0%Z; 7%Z].
    apply (bool_decide_unpack _). now vm_compute.
  - right. left.
  - reflexivity.
  - discriminate.
  - lra.
  - apply noise_of_quiet. lra.
Defined.
